(** * Fortuna Protocol: SDK helpers and market accounting

    Shallow embedding of the TypeScript SDK utilities (fee breakdown,
    winnings estimator, amount formatting, license key derivation,
    category bit vectors) and of the market accounting instructions. *)

From Stdlib Require Import ZArith Lia Sorting.Sorted.
From stdpp Require Import base list gmap.
From Stdlib Require Strings.String Strings.Ascii.

Open Scope Z_scope.

(** ** Fee engine (utils: calculateFees / calculatePotentialWinnings) *)

(** [BN] values are arbitrary-precision integers; [BN.div] rounds towards
    zero, which is [Z.quot]. *)
Definition BPS_DENOMINATOR : Z := 10000.
Definition MAX_TOTAL_FEE_BPS : Z := 1000.

Record FeeBreakdown := mkFeeBreakdown {
  poolFee : Z;
  creatorFee : Z;
  protocolFee : Z;
  netAmount : Z;
  totalFees : Z
}.

Definition calculateFees (amount protocolFeeBps creatorFeeBps poolFeeBps : Z)
  : FeeBreakdown :=
  let poolFee := Z.quot (amount * poolFeeBps) BPS_DENOMINATOR in
  let creatorFee := Z.quot (amount * creatorFeeBps) BPS_DENOMINATOR in
  let protocolFee := Z.quot (amount * protocolFeeBps) BPS_DENOMINATOR in
  let totalFees := poolFee + creatorFee + protocolFee in
  let netAmount := amount - totalFees in
  mkFeeBreakdown poolFee creatorFee protocolFee netAmount totalFees.

Definition calculatePotentialWinnings (betAmount currentOutcomeTotal totalPool
    bonusPool protocolFeeBps creatorFeeBps poolFeeBps : Z) : Z :=
  let fees := calculateFees betAmount protocolFeeBps creatorFeeBps poolFeeBps in
  let newOutcomeTotal := currentOutcomeTotal + netAmount fees in
  let totalDistributable := totalPool + bonusPool + netAmount fees in
  if Z.eqb newOutcomeTotal 0 then totalDistributable
  else Z.quot (netAmount fees * totalDistributable) newOutcomeTotal.

(** ** JavaScript strings (utils: formatAmount / parseAmount)

    A JS string is its sequence of UTF-16 code units, here [list Z];
    ['0'] is 48, ['.'] is 46 and ['-'] is 45. *)

Definition chr_zero : Z := 48.
Definition chr_dot : Z := 46.
Definition chr_minus : Z := 45.

(** Decimal digits of [n >= 0], most significant first, prepended to [acc];
    [fuel] bounds the number of digits. *)
Fixpoint digits_aux (fuel : nat) (n : Z) (acc : list Z) : list Z :=
  match fuel with
  | O => acc
  | S f =>
      let acc' := (chr_zero + n mod 10) :: acc in
      if n <? 10 then acc' else digits_aux f (n / 10) acc'
  end.

Definition decimal_digits (n : Z) : list Z :=
  digits_aux (S (Z.to_nat (Z.log2 n))) n [].

(** [BN.prototype.toString()] (base 10). *)
Definition bn_toString (a : Z) : list Z :=
  if a <? 0 then chr_minus :: decimal_digits (- a) else decimal_digits a.

(** [String.prototype.padStart(target, "0")] *)
Definition padStart (s : list Z) (target : Z) : list Z :=
  let len := Z.of_nat (length s) in
  if target <=? len then s else repeat chr_zero (Z.to_nat (target - len)) ++ s.

(** [String.prototype.padEnd(target, "0")] *)
Definition padEnd (s : list Z) (target : Z) : list Z :=
  let len := Z.of_nat (length s) in
  if target <=? len then s else s ++ repeat chr_zero (Z.to_nat (target - len)).

(** Relative index of [String.prototype.slice]: negative indices count from
    the end ([-0] is [0]). *)
Definition relative_index (len i : Z) : Z :=
  if i <? 0 then Z.max (len + i) 0 else Z.min i len.

(** [s.slice(start)] is [js_slice s start None], [s.slice(start, end)] is
    [js_slice s start (Some end)]. *)
Definition js_slice (s : list Z) (start : Z) (end_ : option Z) : list Z :=
  let len := Z.of_nat (length s) in
  let from := relative_index len start in
  let to := match end_ with None => len | Some e => relative_index len e end in
  take (Z.to_nat (to - from)) (drop (Z.to_nat from) s).

(** [s.split(sep)] for a one-code-unit separator. *)
Fixpoint js_split (sep : Z) (s : list Z) : list (list Z) :=
  match s with
  | [] => [[]]
  | c :: r =>
      if c =? sep then [] :: js_split sep r
      else match js_split sep r with
           | [] => [[c]]
           | p :: ps => (c :: p) :: ps
           end
  end.

(** Digits of [new BN(str)] in base 10: every code unit must be a decimal
    digit, otherwise BN's parser fails its ['Invalid character'] assertion
    (here [None]). *)
Fixpoint parse_digits (s : list Z) (acc : Z) : option Z :=
  match s with
  | [] => Some acc
  | c :: r =>
      if (48 <=? c) && (c <=? 57) then parse_digits r (acc * 10 + (c - 48))
      else None
  end.

(** [new BN(str)] for a base-10 string, with an optional leading ['-']. *)
Definition bn_parse (s : list Z) : option Z :=
  match s with
  | c :: r => if c =? chr_minus then option_map Z.opp (parse_digits r 0)
              else parse_digits s 0
  | [] => parse_digits s 0
  end.

Definition formatAmount (amount decimals : Z) : list Z :=
  let str := padStart (bn_toString amount) (decimals + 1) in
  let intPart := match js_slice str 0 (Some (- decimals)) with
                 | [] => [chr_zero]          (* || '0' *)
                 | p => p
                 end in
  let decPart := js_slice str (- decimals) None in
  intPart ++ [chr_dot] ++ decPart.

(** [parseAmount] on a string argument ([amount.toString()] is the string
    itself). *)
Definition parseAmount (amount : list Z) (decimals : Z) : option Z :=
  let parts := js_split chr_dot amount in
  let intPart := match parts with p :: _ => p | [] => [] end in
  let decPart := match parts with _ :: d :: _ => d | _ => [] end in
  let paddedDec := js_slice (padEnd decPart decimals) 0 (Some decimals) in
  bn_parse (intPart ++ paddedDec).

(** ** License keys (utils: generateLicenseKey) *)

(** UTF-8 encoding of one code point. *)
Definition utf8_code_point (cp : Z) : list Z :=
  if cp <? 128 then [cp]
  else if cp <? 2048 then
    [Z.lor 192 (Z.shiftr cp 6); Z.lor 128 (Z.land cp 63)]
  else if cp <? 65536 then
    [Z.lor 224 (Z.shiftr cp 12); Z.lor 128 (Z.land (Z.shiftr cp 6) 63);
     Z.lor 128 (Z.land cp 63)]
  else
    [Z.lor 240 (Z.shiftr cp 18); Z.lor 128 (Z.land (Z.shiftr cp 12) 63);
     Z.lor 128 (Z.land (Z.shiftr cp 6) 63); Z.lor 128 (Z.land cp 63)].

Definition is_high_surrogate (c : Z) : bool := (55296 <=? c) && (c <=? 56319).
Definition is_low_surrogate (c : Z) : bool := (56320 <=? c) && (c <=? 57343).
Definition replacement_char : Z := 65533.

(** [new TextEncoder().encode(s)] over the UTF-16 code units of [s]:
    surrogate pairs are combined, lone surrogates become U+FFFD. *)
Fixpoint text_encode (s : list Z) : list Z :=
  match s with
  | [] => []
  | c :: r =>
      if is_high_surrogate c then
        match r with
        | d :: r' =>
            if is_low_surrogate d then
              utf8_code_point (65536 + (c - 55296) * 1024 + (d - 56320))
                ++ text_encode r'
            else utf8_code_point replacement_char ++ text_encode r
        | [] => utf8_code_point replacement_char
        end
      else if is_low_surrogate c then
        utf8_code_point replacement_char ++ text_encode r
      else utf8_code_point c ++ text_encode r
  end.

(** The loop [for (i ...) hash[i % 32] ^= data[i]] on a [Uint8Array]
    (stores are reduced modulo 256). *)
Fixpoint xor_fold (i : nat) (data : list Z) (hash : list Z) : list Z :=
  match data with
  | [] => hash
  | b :: r =>
      let k := Nat.modulo i 32 in
      xor_fold (S i) r (<[k := Z.land (Z.lxor (hash !!! k) b) 255]> hash)
  end.

Definition generateLicenseKey (seed : list Z) : list Z :=
  xor_fold 0 (text_encode seed) (repeat 0 32).

(** ** Category vectors (types: categoriesToBoolArray / boolArrayToCategories) *)

Definition categoriesToBoolArray (categories : list Z) : list bool :=
  fold_left
    (fun result cat =>
       if (0 <=? cat) && (cat <? 12) then <[Z.to_nat cat := true]> result
       else result)
    categories (repeat false 12).

(** The loop [for (i = 0; i < boolArray.length && i < 12; i++)], started at
    index [i]. *)
Fixpoint bool_array_from (i : nat) (boolArray : list bool) : list Z :=
  match boolArray with
  | [] => []
  | b :: r =>
      if Nat.ltb i 12 then
        (if b then [Z.of_nat i] else []) ++ bool_array_from (S i) r
      else []
  end.

Definition boolArrayToCategories (boolArray : list bool) : list Z :=
  bool_array_from 0 boolArray.

(** ** Category names (constants: CATEGORY_NAMES / getCategoryName /
    getAllCategories) *)

(** A string literal as its code units. *)
Definition js_str (s : String.string) : list Z :=
  map (fun a => Z.of_nat (Ascii.nat_of_ascii a)) (String.list_ascii_of_string s).

Module Constants.
Import Stdlib.Strings.String.
Local Open Scope string_scope.

(** [CATEGORY_NAMES], indexed by the [MarketCategory] values
    [Politics = 0] ... [Mentions = 11]. *)
Definition CATEGORY_NAMES : list (list Z) :=
  map js_str ["Politics"; "Sports"; "Finance"; "Crypto"; "Geopolitics";
              "Earnings"; "Tech"; "Culture"; "World"; "Economy"; "Elections";
              "Mentions"].

Definition unknown_category_name : list Z := js_str "Unknown".
Local Close Scope string_scope.

(** [CATEGORY_NAMES[category] || 'Unknown']: a missing key reads as
    [undefined], and [undefined] and the empty string are falsy. *)
Definition getCategoryName (category : Z) : list Z :=
  let entry := if (0 <=? category) && (category <? 12)
               then CATEGORY_NAMES !! Z.to_nat category else None in
  match entry with
  | Some ((_ :: _) as name) => name
  | _ => unknown_category_name
  end.

Definition getAllCategories : list Z := [0; 1; 2; 3; 4; 5; 6; 7; 8; 9; 10; 11].

End Constants.
Import Constants.

(** ** Market accounting

    Modelled from the spec: the on-chain instruction handlers
    ([programs/fortuna-protocol/src/instructions.rs]) are not part of the
    sources at hand; the records and the instructions below follow the
    spec's data model (section 3) and state machine (section 4.2).
    Identities and addresses are [Z]; token balances are kept per token
    account.  A failing instruction commits nothing (all-or-nothing). *)

Inductive MarketStatus := Open | Resolved | Cancelled.

#[global] Instance MarketStatus_eq_dec : EqDecision MarketStatus.
Proof. solve_decision. Defined.

Inductive FortunaError :=
  | Unauthorized | MarketNotOpen | MarketNotResolved | MarketNotCancelled
  | BettingClosed | BettingNotClosed | AlreadyClaimed | AlreadyBet
  | InvalidOutcome | WrongOutcome | InvalidDeadline | InvalidOutcomeCount
  | InvalidBetAmount | LicenseRequired | InsufficientFunds | ArithmeticOverflow
  | OracleNotAssigned | OracleNotFound | OracleInactive
  | OracleCategoryMismatch | AccountNotFound | AccountInUse.

Record ProtocolState := mkProtocolState {
  authority : Z;
  treasury : Z;
  protocolFeeBps : Z;
  creatorFeeBps : Z;
  poolFeeBps : Z;
  totalMarkets : Z;
  requireLicense : bool
}.

Record Outcome := mkOutcome {
  label : list Z;
  totalAmount : Z;
  bettorCount : Z
}.

Record Market := mkMarket {
  marketId : Z;
  creator : Z;
  creatorFeeWallet : Z;
  category : Z;
  oracle : option Z;
  betAmount : Z;
  bettingDeadline : Z;
  resolutionDeadline : Z;
  status : MarketStatus;
  winningOutcome : option Z;
  totalPool : Z;
  bonusPool : Z;
  outcomes : list Outcome;
  createdAt : Z;
  resolvedAt : Z;
  resolvedByOracle : bool
}.

Record Bet := mkBet {
  market : Z;
  bettor : Z;
  outcomeIndex : Z;
  originalAmount : Z;
  poolAmount : Z;
  claimed : bool;
  placedAt : Z
}.

Record Oracle := mkOracle {
  oracleAuthority : Z;
  categories : list bool;
  isActive : bool;
  marketsResolved : Z;
  lastResolutionAt : Z
}.

(** Token accounts: a wallet's account for the stake asset, or a vault
    owned by the program at a derived address. *)
Inductive TokenAccount := WalletAccount (owner : Z) | VaultAccount (addr : Z).

#[global] Instance TokenAccount_eq_dec : EqDecision TokenAccount.
Proof. solve_decision. Defined.

#[global] Instance TokenAccount_countable : Countable TokenAccount.
Proof.
  refine (inj_countable'
    (fun t => match t with WalletAccount o => inl o | VaultAccount a => inr a end)
    (fun x => match x with inl o => WalletAccount o | inr a => VaultAccount a end)
    _).
  by intros [].
Defined.

Record Ledger := mkLedger {
  protocol : ProtocolState;
  markets : gmap Z Market;
  bets : gmap Z Bet;
  oracles : gmap Z Oracle;
  balances : gmap TokenAccount Z
}.

Definition U64_MAX : Z := 18446744073709551615.

(** The ledger monad: state passing with an error exit. *)
Definition LM (A : Type) : Type := Ledger -> FortunaError + (A * Ledger).

Definition lm_ret {A} (a : A) : LM A := fun s => inr (a, s).
Definition lm_bind {A B} (m : LM A) (k : A -> LM B) : LM B :=
  fun s => match m s with inl e => inl e | inr (a, s') => k a s' end.
Definition lm_fail {A} (e : FortunaError) : LM A := fun _ => inl e.
Definition lm_get : LM Ledger := fun s => inr (s, s).
Definition lm_modify (f : Ledger -> Ledger) : LM unit := fun s => inr (tt, f s).

Notation "'let!' x ':=' m 'in' k" := (lm_bind m (fun x => k))
  (at level 200, x name, m at level 100, k at level 200).

Definition require (b : bool) (e : FortunaError) : LM unit :=
  if b then lm_ret tt else lm_fail e.

Definition of_option {A} (o : option A) (e : FortunaError) : LM A :=
  match o with Some a => lm_ret a | None => lm_fail e end.

Definition checked_add (a b : Z) : LM Z :=
  if (0 <=? a + b) && (a + b <=? U64_MAX) then lm_ret (a + b)
  else lm_fail ArithmeticOverflow.

Definition checked_sub (a b : Z) : LM Z :=
  if (0 <=? a - b) && (a - b <=? U64_MAX) then lm_ret (a - b)
  else lm_fail ArithmeticOverflow.

(** Run an instruction: the new ledger, or the error. *)
Definition run (m : LM unit) (s : Ledger) : FortunaError + Ledger :=
  match m s with inl e => inl e | inr (_, s') => inr s' end.

(** Commit semantics: a failed instruction leaves the ledger as it was. *)
Definition exec (m : LM unit) (s : Ledger) : Ledger :=
  match run m s with inl _ => s | inr s' => s' end.

Definition set_markets (f : gmap Z Market -> gmap Z Market) (s : Ledger) : Ledger :=
  mkLedger (protocol s) (f (markets s)) (bets s) (oracles s) (balances s).
Definition set_bets (f : gmap Z Bet -> gmap Z Bet) (s : Ledger) : Ledger :=
  mkLedger (protocol s) (markets s) (f (bets s)) (oracles s) (balances s).
Definition set_oracles (f : gmap Z Oracle -> gmap Z Oracle) (s : Ledger) : Ledger :=
  mkLedger (protocol s) (markets s) (bets s) (f (oracles s)) (balances s).
Definition set_balances (f : gmap TokenAccount Z -> gmap TokenAccount Z)
    (s : Ledger) : Ledger :=
  mkLedger (protocol s) (markets s) (bets s) (oracles s) (f (balances s)).
Definition set_protocol (p : ProtocolState) (s : Ledger) : Ledger :=
  mkLedger p (markets s) (bets s) (oracles s) (balances s).

Definition balance_of (s : Ledger) (a : TokenAccount) : Z :=
  default 0 (balances s !! a).

(** Token transfer (the funds-movement collaborator): checked debit, then
    checked credit. *)
Definition transfer (from to : TokenAccount) (amount : Z) : LM unit :=
  let! s := lm_get in
  let! nf := checked_sub (balance_of s from) amount in
  let! _ := lm_modify (set_balances (<[from := nf]>)) in
  let! s1 := lm_get in
  let! nt := checked_add (balance_of s1 to) amount in
  lm_modify (set_balances (<[to := nt]>)).

Definition load_market (addr : Z) : LM Market :=
  let! s := lm_get in of_option (markets s !! addr) AccountNotFound.
Definition put_market (addr : Z) (m : Market) : LM unit :=
  lm_modify (set_markets (<[addr := m]>)).
Definition put_bet (addr : Z) (b : Bet) : LM unit :=
  lm_modify (set_bets (<[addr := b]>)).

Definition market_with_status (m : Market) (st : MarketStatus)
    (w : option Z) (at_ : Z) (byOracle : bool) : Market :=
  mkMarket (marketId m) (creator m) (creatorFeeWallet m) (category m)
    (oracle m) (betAmount m) (bettingDeadline m) (resolutionDeadline m)
    st w (totalPool m) (bonusPool m) (outcomes m) (createdAt m) at_ byOracle.

Definition market_with_pools (m : Market) (tp bp : Z) (os : list Outcome) : Market :=
  mkMarket (marketId m) (creator m) (creatorFeeWallet m) (category m)
    (oracle m) (betAmount m) (bettingDeadline m) (resolutionDeadline m)
    (status m) (winningOutcome m) tp bp os (createdAt m) (resolvedAt m)
    (resolvedByOracle m).

Definition market_with_oracle (m : Market) (o : option Z) : Market :=
  mkMarket (marketId m) (creator m) (creatorFeeWallet m) (category m)
    o (betAmount m) (bettingDeadline m) (resolutionDeadline m)
    (status m) (winningOutcome m) (totalPool m) (bonusPool m) (outcomes m)
    (createdAt m) (resolvedAt m) (resolvedByOracle m).

Definition bet_with_claimed (b : Bet) : Bet :=
  mkBet (market b) (bettor b) (outcomeIndex b) (originalAmount b)
    (poolAmount b) true (placedAt b).

Definition valid_outcome (m : Market) (i : Z) : bool :=
  (0 <=? i) && (i <? Z.of_nat (length (outcomes m))).

Definition outcome_at (m : Market) (i : Z) : LM Outcome :=
  let! _ := require (valid_outcome m i) InvalidOutcome in
  of_option (outcomes m !! Z.to_nat i) InvalidOutcome.

(** Payout of [claim_winnings]:
    [poolAmount * (totalPool + bonusPool) / winningOutcomeTotal], the whole
    distributable amount when the winning total is zero; divisions truncate. *)
Definition winnings_payout (poolAmount totalPool bonusPool winningTotal : Z) : Z :=
  if winningTotal =? 0 then totalPool + bonusPool
  else Z.quot (poolAmount * (totalPool + bonusPool)) winningTotal.

(** The part of the payout drawn from the stake vault; the rest comes from
    the bonus-pool vault. *)
Definition winnings_stake_share (poolAmount totalPool winningTotal : Z) : Z :=
  if winningTotal =? 0 then totalPool
  else Z.quot (poolAmount * totalPool) winningTotal.

(** Seeds of the derived addresses (constants: [*_SEED]). *)
Definition MARKET_SEED : list Z := [109; 97; 114; 107; 101; 116].
Definition MARKET_VAULT_SEED : list Z :=
  [109; 97; 114; 107; 101; 116; 95; 118; 97; 117; 108; 116].
Definition POOL_VAULT_SEED : list Z := [112; 111; 111; 108; 95; 118; 97; 117; 108; 116].
Definition BET_SEED : list Z := [98; 101; 116].

(** [n] little-endian bytes of [v] ([BN.toArrayLike(Buffer, 'le', n)]). *)
Fixpoint le_bytes (n : nat) (v : Z) : list Z :=
  match n with
  | O => []
  | S k => Z.land v 255 :: le_bytes k (Z.shiftr v 8)
  end.

(** [PublicKey.toBuffer()]: the 32 bytes of the key, big-endian. *)
Definition to_buffer (key : Z) : list Z := rev (le_bytes 32 key).

Definition ORACLE_SEED : list Z := [111; 114; 97; 99; 108; 101].
Definition LICENSE_SEED : list Z := [108; 105; 99; 101; 110; 115; 101].

(** [BN.prototype.toArrayLike(Buffer, 'le', n)]: the little-endian bytes
    of the magnitude (the sign is not encoded); a magnitude that needs more
    than [n] bytes fails the 'byte array longer than desired length'
    assertion ([None]). *)
Definition bn_toArrayLike_le (v : Z) (n : nat) : option (list Z) :=
  if Z.abs v <? 2 ^ (8 * Z.of_nat n) then Some (le_bytes n (Z.abs v)) else None.

(** [Buffer.alloc(4)] then [writeUInt32LE(v)]: a value outside
    [0, 2^32 - 1] throws a RangeError ([None]). *)
Definition writeUInt32LE (v : Z) : option (list Z) :=
  if (0 <=? v) && (v <=? 4294967295) then Some (le_bytes 4 v) else None.

(** [Buffer.from(array)] of a number array: each element is stored
    modulo 256. *)
Definition buffer_from (bytes : list Z) : list Z := map (fun x => x mod 256) bytes.

Section Instructions.

(** The address component of [PublicKey.findProgramAddressSync(seeds)]:
    deterministic, otherwise left abstract. *)
Variable findProgramAddress : list (list Z) -> Z.

Definition getMarketPDA (id : Z) : Z :=
  findProgramAddress [MARKET_SEED; le_bytes 8 id].
Definition getMarketVaultPDA (marketPubkey : Z) : Z :=
  findProgramAddress [MARKET_VAULT_SEED; to_buffer marketPubkey].
Definition getPoolVaultPDA (marketPubkey : Z) : Z :=
  findProgramAddress [POOL_VAULT_SEED; to_buffer marketPubkey].
Definition getBetPDA (marketPubkey bettorPubkey : Z) : Z :=
  findProgramAddress [BET_SEED; to_buffer marketPubkey; to_buffer bettorPubkey].

(** [getMarketPDA] of a [BN] id with the checks of [toArrayLike]. *)
Definition getMarketPDA_checked (marketId : Z) : option Z :=
  option_map (fun idBytes => findProgramAddress [MARKET_SEED; idBytes])
    (bn_toArrayLike_le marketId 8).

Definition getOraclePDA (oracleId : Z) : option Z :=
  option_map (fun idBuffer => findProgramAddress [ORACLE_SEED; idBuffer])
    (writeUInt32LE oracleId).

Definition getLicensePDA (licenseKey : list Z) : Z :=
  findProgramAddress [LICENSE_SEED; buffer_from licenseKey].

(** [create_market].  The License Registry's decision for the creator is
    an input ([licenseAllowed]); the market record is created at the
    address derived from [marketId], which must be free. *)
Definition create_market (caller id feeWallet cat amount bettingDl resolutionDl : Z)
    (labels : list (list Z)) (licenseAllowed : bool) (now : Z) : LM unit :=
  let addr := getMarketPDA id in
  let! s := lm_get in
  let! _ := require (bool_decide (markets s !! addr = None)) AccountInUse in
  let! _ := require ((now <? bettingDl) && (bettingDl <? resolutionDl))
              InvalidDeadline in
  let! _ := require ((2 <=? Z.of_nat (length labels))
                     && (Z.of_nat (length labels) <=? 10)) InvalidOutcomeCount in
  let! _ := require (forallb (fun l => (0 <? Z.of_nat (length l))
                                      && (Z.of_nat (length l) <=? 64)) labels)
              InvalidOutcome in
  let! _ := require (0 <? amount) InvalidBetAmount in
  let! _ := require (negb (requireLicense (protocol s)) || licenseAllowed)
              LicenseRequired in
  let m := mkMarket id caller feeWallet cat None amount bettingDl resolutionDl
             Open None 0 0 (map (fun l => mkOutcome l 0 0) labels) now 0 false in
  let p := protocol s in
  let! n := checked_add (totalMarkets p) 1 in
  let! _ := lm_modify (set_protocol (mkProtocolState (authority p) (treasury p)
              (protocolFeeBps p) (creatorFeeBps p) (poolFeeBps p) n
              (requireLicense p))) in
  let! _ := lm_modify (set_balances
              (fun bs => <[VaultAccount (getMarketVaultPDA addr) := 0]>
                         (<[VaultAccount (getPoolVaultPDA addr) := 0]> bs))) in
  put_market addr m.

(** [place_bet]: the bet record is created at the address derived from
    (market, bettor), which must be free. *)
Definition place_bet (caller mkt idx now : Z) : LM unit :=
  let baddr := getBetPDA mkt caller in
  let! s := lm_get in
  let! _ := require (bool_decide (bets s !! baddr = None)) AlreadyBet in
  let! m := load_market mkt in
  let! _ := require (bool_decide (status m = Open)) MarketNotOpen in
  let! _ := require (now <? bettingDeadline m) BettingClosed in
  let! o := outcome_at m idx in
  let p := protocol s in
  let fees := calculateFees (betAmount m) (protocolFeeBps p) (creatorFeeBps p)
                (poolFeeBps p) in
  let! _ := transfer (WalletAccount caller) (WalletAccount (treasury p))
              (protocolFee fees) in
  let! _ := transfer (WalletAccount caller) (WalletAccount (creatorFeeWallet m))
              (creatorFee fees) in
  let! _ := transfer (WalletAccount caller) (VaultAccount (getPoolVaultPDA mkt))
              (poolFee fees) in
  let! _ := transfer (WalletAccount caller) (VaultAccount (getMarketVaultPDA mkt))
              (netAmount fees) in
  let! ot := checked_add (totalAmount o) (netAmount fees) in
  let! oc := checked_add (bettorCount o) 1 in
  let! tp := checked_add (totalPool m) (netAmount fees) in
  let! bp := checked_add (bonusPool m) (poolFee fees) in
  let os := <[Z.to_nat idx := mkOutcome (label o) ot oc]> (outcomes m) in
  let! _ := put_market mkt (market_with_pools m tp bp os) in
  put_bet baddr (mkBet mkt caller idx (betAmount m) (netAmount fees) false now).

(** [withdraw_bet]: returns the net stake, fees are kept. *)
Definition withdraw_bet (caller mkt now : Z) : LM unit :=
  let baddr := getBetPDA mkt caller in
  let! s := lm_get in
  let! b := of_option (bets s !! baddr) AccountNotFound in
  let! _ := require (bettor b =? caller) Unauthorized in
  let! _ := require (negb (claimed b)) AlreadyClaimed in
  let! m := load_market mkt in
  let! _ := require (bool_decide (status m = Open)) MarketNotOpen in
  let! _ := require (now <? bettingDeadline m) BettingClosed in
  let! o := outcome_at m (outcomeIndex b) in
  let! _ := transfer (VaultAccount (getMarketVaultPDA mkt)) (WalletAccount caller)
              (poolAmount b) in
  let! ot := checked_sub (totalAmount o) (poolAmount b) in
  let! oc := checked_sub (bettorCount o) 1 in
  let! tp := checked_sub (totalPool m) (poolAmount b) in
  let os := <[Z.to_nat (outcomeIndex b) := mkOutcome (label o) ot oc]> (outcomes m) in
  let! _ := put_market mkt (market_with_pools m tp (bonusPool m) os) in
  put_bet baddr (bet_with_claimed b).

(** [resolve_market]: manual resolution by the creator. *)
Definition resolve_market (caller mkt w now : Z) : LM unit :=
  let! m := load_market mkt in
  let! _ := require (caller =? creator m) Unauthorized in
  let! _ := require (bool_decide (status m = Open)) MarketNotOpen in
  let! _ := require (bettingDeadline m <=? now) BettingNotClosed in
  let! _ := require (valid_outcome m w) InvalidOutcome in
  put_market mkt (market_with_status m Resolved (Some w) now false).

(** [oracle_resolve_market]: resolution by the assigned oracle's authority. *)
Definition oracle_resolve_market (caller mkt w now : Z) : LM unit :=
  let! m := load_market mkt in
  let! _ := require (bool_decide (status m = Open)) MarketNotOpen in
  let! oaddr := of_option (oracle m) OracleNotAssigned in
  let! s := lm_get in
  let! o := of_option (oracles s !! oaddr) OracleNotFound in
  let! _ := require (caller =? oracleAuthority o) Unauthorized in
  let! _ := require (isActive o) OracleInactive in
  let! _ := require (default false (categories o !! Z.to_nat (category m)))
              OracleCategoryMismatch in
  let! _ := require (bettingDeadline m <=? now) BettingNotClosed in
  let! _ := require (valid_outcome m w) InvalidOutcome in
  let! _ := put_market mkt (market_with_status m Resolved (Some w) now true) in
  let! n := checked_add (marketsResolved o) 1 in
  lm_modify (set_oracles (<[oaddr := mkOracle (oracleAuthority o) (categories o)
                                       (isActive o) n now]>)).

(** [cancel_market]: by the creator, while the market is open. *)
Definition cancel_market (caller mkt : Z) : LM unit :=
  let! m := load_market mkt in
  let! _ := require (caller =? creator m) Unauthorized in
  let! _ := require (bool_decide (status m = Open)) MarketNotOpen in
  put_market mkt (market_with_status m Cancelled (winningOutcome m)
                    (resolvedAt m) (resolvedByOracle m)).

(** [assign_oracle]: by the creator, while the market is open. *)
Definition assign_oracle (caller mkt oaddr : Z) : LM unit :=
  let! m := load_market mkt in
  let! _ := require (caller =? creator m) Unauthorized in
  let! _ := require (bool_decide (status m = Open)) MarketNotOpen in
  let! s := lm_get in
  let! _ := of_option (oracles s !! oaddr) OracleNotFound in
  put_market mkt (market_with_oracle m (Some oaddr)).

(** [claim_winnings]: pays the caller's share of the final pools. *)
Definition claim_winnings (caller mkt : Z) : LM unit :=
  let baddr := getBetPDA mkt caller in
  let! s := lm_get in
  let! b := of_option (bets s !! baddr) AccountNotFound in
  let! _ := require (negb (claimed b)) AlreadyClaimed in
  let! m := load_market mkt in
  let! _ := require (bool_decide (status m = Resolved)) MarketNotResolved in
  let! _ := require (bool_decide (winningOutcome m = Some (outcomeIndex b)))
              WrongOutcome in
  let! o := outcome_at m (outcomeIndex b) in
  let payout := winnings_payout (poolAmount b) (totalPool m) (bonusPool m)
                  (totalAmount o) in
  let stake := winnings_stake_share (poolAmount b) (totalPool m) (totalAmount o) in
  let! _ := transfer (VaultAccount (getMarketVaultPDA mkt)) (WalletAccount caller)
              stake in
  let! _ := transfer (VaultAccount (getPoolVaultPDA mkt)) (WalletAccount caller)
              (payout - stake) in
  put_bet baddr (bet_with_claimed b).

(** [claim_refund]: returns the net stake of a cancelled market. *)
Definition claim_refund (caller mkt : Z) : LM unit :=
  let baddr := getBetPDA mkt caller in
  let! s := lm_get in
  let! b := of_option (bets s !! baddr) AccountNotFound in
  let! _ := require (negb (claimed b)) AlreadyClaimed in
  let! m := load_market mkt in
  let! _ := require (bool_decide (status m = Cancelled)) MarketNotCancelled in
  let! _ := transfer (VaultAccount (getMarketVaultPDA mkt)) (WalletAccount caller)
              (poolAmount b) in
  put_bet baddr (bet_with_claimed b).

Inductive Instr :=
  | CreateMarket (caller id feeWallet cat amount bettingDl resolutionDl : Z)
      (labels : list (list Z)) (licenseAllowed : bool) (now : Z)
  | PlaceBet (caller mkt idx now : Z)
  | WithdrawBet (caller mkt now : Z)
  | ResolveMarket (caller mkt w now : Z)
  | OracleResolveMarket (caller mkt w now : Z)
  | CancelMarket (caller mkt : Z)
  | AssignOracle (caller mkt oaddr : Z)
  | ClaimWinnings (caller mkt : Z)
  | ClaimRefund (caller mkt : Z).

Definition step (i : Instr) : LM unit :=
  match i with
  | CreateMarket c id fw cat a bd rd ls lic now =>
      create_market c id fw cat a bd rd ls lic now
  | PlaceBet c mkt idx now => place_bet c mkt idx now
  | WithdrawBet c mkt now => withdraw_bet c mkt now
  | ResolveMarket c mkt w now => resolve_market c mkt w now
  | OracleResolveMarket c mkt w now => oracle_resolve_market c mkt w now
  | CancelMarket c mkt => cancel_market c mkt
  | AssignOracle c mkt o => assign_oracle c mkt o
  | ClaimWinnings c mkt => claim_winnings c mkt
  | ClaimRefund c mkt => claim_refund c mkt
  end.

Definition exec_all (is : list Instr) (s : Ledger) : Ledger :=
  fold_left (fun s i => exec (step i) s) is s.

End Instructions.

(** ** Scenario B of the spec

    Two bettors stake 10,000,000 each on opposite outcomes of a two-outcome
    market with fees (50, 50, 500); the market resolves to outcome 0.
    Addresses are derived with an injective [findProgramAddress]. *)

Definition scenario_pda (seeds : list (list Z)) : Z := Z.pos (encode seeds).

Definition sc_authority : Z := 1.
Definition sc_treasury : Z := 2.
Definition sc_creator : Z := 3.
Definition sc_bettor1 : Z := 4.
Definition sc_bettor2 : Z := 5.
Definition sc_market : Z := getMarketPDA scenario_pda 1.

Definition scenario_initial : Ledger :=
  mkLedger (mkProtocolState sc_authority sc_treasury 50 50 500 0 false)
    empty empty empty
    (<[WalletAccount sc_bettor1 := 100000000]>
       (<[WalletAccount sc_bettor2 := 100000000]> empty)).

Definition scenario_resolved : Ledger :=
  exec_all scenario_pda
    [CreateMarket sc_creator 1 sc_creator 3 10000000 1000 2000
       [[89; 101; 115]; [78; 111]] false 0;
     PlaceBet sc_bettor1 sc_market 0 10;
     PlaceBet sc_bettor2 sc_market 1 20;
     ResolveMarket sc_creator sc_market 0 1500]
    scenario_initial.

(** A market of the scenario, created and then cancelled by its creator. *)
Definition scenario_cancelled : Ledger :=
  exec_all scenario_pda
    [CreateMarket sc_creator 1 sc_creator 3 10000000 1000 2000
       [[89; 101; 115]; [78; 111]] false 0;
     CancelMarket sc_creator sc_market]
    scenario_initial.

Example calculateFees_scenarioA :
  calculateFees 10000000 50 50 500 =
  mkFeeBreakdown 500000 50000 50000 9400000 600000.
Proof. reflexivity. Qed.

Example formatAmount_ex : formatAmount 1234567 6 = [49; 46; 50; 51; 52; 53; 54; 55].
Proof. reflexivity. Qed.
Example formatAmount_small : formatAmount 5 6 = [48; 46; 48; 48; 48; 48; 48; 53].
Proof. reflexivity. Qed.
Example parseAmount_ex : parseAmount (formatAmount 1234567 6) 6 = Some 1234567.
Proof. reflexivity. Qed.
Example formatAmount_zero_decimals : formatAmount 123 0 = [48; 46; 49; 50; 51].
Proof. reflexivity. Qed.
Example parseAmount_zero_decimals : parseAmount (formatAmount 123 0) 0 = Some 0.
Proof. reflexivity. Qed.

Example licenseKey_ab :
  take 3 (generateLicenseKey [97; 98]) = [97; 98; 0].
Proof. reflexivity. Qed.
Example categories_ex :
  boolArrayToCategories (categoriesToBoolArray [3; 1; 3; 15; -1; 11]) = [1; 3; 11].
Proof. reflexivity. Qed.

Example scenario_test :
  option_map totalPool (markets scenario_resolved !! sc_market) = Some 18800000.
Proof. vm_compute. reflexivity. Qed.

(** * Fee engine *)

(** C1: the four parts of the fee breakdown add up to the amount, for every
    amount and every bps triple (in particular for bps sums up to 1000 and
    positive amounts). *)
Theorem calculateFees_parts_sum (amount protocolFeeBps creatorFeeBps poolFeeBps : Z) :
  let f := calculateFees amount protocolFeeBps creatorFeeBps poolFeeBps in
  poolFee f + creatorFee f + protocolFee f + netAmount f = amount.
Proof. cbn. lia. Qed.

(** C2: for a non-negative amount and basis-point values, each fee is
    [floor (amount * bps / 10000)], the net amount is the amount minus the
    three fees, and Scenario A gives 50,000 / 50,000 / 500,000 / 9,400,000. *)
Theorem calculateFees_floor
    (amount protocolFeeBps creatorFeeBps poolFeeBps : Z)
    (Ha : 0 <= amount) (Hp : 0 <= protocolFeeBps) (Hc : 0 <= creatorFeeBps)
    (Hq : 0 <= poolFeeBps) :
  let f := calculateFees amount protocolFeeBps creatorFeeBps poolFeeBps in
  (poolFee f = (amount * poolFeeBps) / 10000 /\
   creatorFee f = (amount * creatorFeeBps) / 10000 /\
   protocolFee f = (amount * protocolFeeBps) / 10000 /\
   netAmount f = amount - (poolFee f + creatorFee f + protocolFee f)) /\
  (let g := calculateFees 10000000 50 50 500 in
   protocolFee g = 50000 /\ creatorFee g = 50000 /\ poolFee g = 500000 /\
   netAmount g = 9400000).
Proof.
  cbn -[Z.quot Z.div]. unfold BPS_DENOMINATOR.
  split; [|vm_compute; repeat split].
  repeat split; try apply Z.quot_div_nonneg; try lia.
Qed.

Lemma calculateFees_floor_witness :
  (0 <= 12345 /\ 0 <= 50 /\ 0 <= 50 /\ 0 <= 500) /\
  poolFee (calculateFees 12345 50 50 500) = (12345 * 500) / 10000.
Proof.
  split; [repeat split; lia|].
  exact (proj1 (proj1 (calculateFees_floor 12345 50 50 500
           ltac:(lia) ltac:(lia) ltac:(lia) ltac:(lia)))).
Defined.

(** C3: the estimator returns
    [netAmount * (totalPool + bonusPool + netAmount) / (outcomeTotal + netAmount)]
    with truncating division, and the whole distributable amount when the
    outcome total after the bet is zero. *)
Theorem calculatePotentialWinnings_share
    (betAmount outcomeTotalBeforeBet totalPool bonusPool
     protocolFeeBps creatorFeeBps poolFeeBps : Z) :
  let net := netAmount (calculateFees betAmount protocolFeeBps creatorFeeBps
                          poolFeeBps) in
  calculatePotentialWinnings betAmount outcomeTotalBeforeBet totalPool bonusPool
    protocolFeeBps creatorFeeBps poolFeeBps =
  if outcomeTotalBeforeBet + net =? 0 then totalPool + bonusPool + net
  else Z.quot (net * (totalPool + bonusPool + net)) (outcomeTotalBeforeBet + net).
Proof. reflexivity. Qed.

(** * Amount formatting *)

Definition is_digit (c : Z) : Prop := 48 <= c <= 57.

Definition digits_value (l : list Z) (acc : Z) : Z :=
  fold_left (fun a c => a * 10 + (c - 48)) l acc.

Lemma digits_value_acc (l : list Z) (a : Z) :
  digits_value l a = a * 10 ^ Z.of_nat (length l) + digits_value l 0.
Proof.
  unfold digits_value. revert a. induction l as [|c l IH]; intros a; cbn.
  - lia.
  - rewrite (IH (a * 10 + (c - 48))), (IH (0 * 10 + (c - 48))).
    rewrite Nat2Z.inj_succ, Z.pow_succ_r by lia. lia.
Qed.

Lemma digits_value_app (l1 l2 : list Z) (a : Z) :
  digits_value (l1 ++ l2) a = digits_value l2 (digits_value l1 a).
Proof. unfold digits_value. apply fold_left_app. Qed.

Lemma digits_value_zeros (n : nat) : digits_value (repeat chr_zero n) 0 = 0.
Proof.
  induction n as [|n IH]; [reflexivity|].
  cbn [repeat]. unfold digits_value in *. cbn [fold_left].
  replace (0 * 10 + (chr_zero - 48)) with 0 by (unfold chr_zero; lia). exact IH.
Qed.

Lemma parse_digits_ok (l : list Z) (acc : Z) :
  Forall is_digit l -> parse_digits l acc = Some (digits_value l acc).
Proof.
  revert acc. induction l as [|c l IH]; intros acc Hl; [reflexivity|].
  inversion Hl as [|? ? Hc Hr]; subst. unfold is_digit in Hc. cbn.
  replace ((48 <=? c) && (c <=? 57)) with true
    by (symmetry; apply andb_true_iff; split; apply Z.leb_le; lia).
  apply IH, Hr.
Qed.

Lemma digits_aux_spec (fuel : nat) (n : Z) (acc : list Z) :
  0 <= n < 10 ^ Z.of_nat fuel -> (0 < n \/ (fuel > 0)%nat) ->
  Forall is_digit acc ->
  Forall is_digit (digits_aux fuel n acc) /\
  (length acc < length (digits_aux fuel n acc))%nat /\
  digits_value (digits_aux fuel n acc) 0 =
    n * 10 ^ Z.of_nat (length acc) + digits_value acc 0.
Proof.
  revert n acc. induction fuel as [|f IH]; intros n acc Hn Hpos Hacc.
  - cbn in Hn. lia.
  - cbn [digits_aux].
    assert (Hd : Forall is_digit ((chr_zero + n mod 10) :: acc)).
    { constructor; [|exact Hacc]. unfold is_digit, chr_zero.
      pose proof (Z.mod_pos_bound n 10). lia. }
    assert (Hv : digits_value ((chr_zero + n mod 10) :: acc) 0 =
                 n mod 10 * 10 ^ Z.of_nat (length acc) + digits_value acc 0).
    { unfold digits_value at 1. cbn [fold_left].
      fold (digits_value acc (0 * 10 + (chr_zero + n mod 10 - 48))).
      rewrite digits_value_acc. unfold chr_zero. lia. }
    destruct (n <? 10) eqn:E.
    + apply Z.ltb_lt in E. split; [exact Hd|]. split; [cbn; lia|].
      rewrite Hv, Z.mod_small by lia. reflexivity.
    + apply Z.ltb_ge in E.
      rewrite Nat2Z.inj_succ, Z.pow_succ_r in Hn by lia.
      destruct (IH (n / 10) ((chr_zero + n mod 10) :: acc)) as (H1 & H2 & H3).
      * split; [apply Z.div_pos; lia|]. apply Z.div_lt_upper_bound; lia.
      * left. apply Z.div_str_pos. lia.
      * exact Hd.
      * split; [exact H1|]. split; [cbn in H2; lia|].
        rewrite H3, Hv. cbn [length]. rewrite Nat2Z.inj_succ, Z.pow_succ_r by lia.
        pose proof (Z.div_mod n 10). lia.
Qed.

Lemma decimal_digits_spec (n : Z) :
  0 <= n ->
  Forall is_digit (decimal_digits n) /\ (1 <= length (decimal_digits n))%nat /\
  digits_value (decimal_digits n) 0 = n.
Proof.
  intros Hn. unfold decimal_digits.
  destruct (digits_aux_spec (S (Z.to_nat (Z.log2 n))) n [])
    as (H1 & H2 & H3); [| right; lia | constructor |].
  - split; [exact Hn|]. rewrite Nat2Z.inj_succ, Z2Nat.id by apply Z.log2_nonneg.
    destruct (Z.eq_dec n 0) as [->|Hn0]; [cbn; lia|].
    destruct (Z.log2_spec n) as [_ Hlt]; [lia|].
    eapply Z.lt_le_trans; [exact Hlt|].
    apply Z.pow_le_mono_l. split; [lia|].
    apply Z.leb_le; reflexivity.
  - cbn [length Z.of_nat] in H2, H3. rewrite Z.pow_0_r in H3.
    split; [exact H1|]. split; [lia|]. change (digits_value [] 0) with 0 in H3. lia.
Qed.

Lemma digit_not_sep (l : list Z) :
  Forall is_digit l -> Forall (fun c => c <> chr_dot) l.
Proof.
  intros H. eapply Forall_impl; [exact H|]. unfold is_digit, chr_dot. intros; lia.
Qed.

Lemma js_split_no_sep (sep : Z) (x : list Z) :
  Forall (fun c => c <> sep) x -> js_split sep x = [x].
Proof.
  induction x as [|c x IH]; intros H; [reflexivity|].
  inversion H as [|? ? Hc Hr]; subst. cbn.
  rewrite (proj2 (Z.eqb_neq c sep) Hc), IH by exact Hr. reflexivity.
Qed.

Lemma js_split_app (sep : Z) (x y : list Z) :
  Forall (fun c => c <> sep) x ->
  js_split sep (x ++ sep :: y) = x :: js_split sep y.
Proof.
  induction x as [|c x IH]; intros H; cbn.
  - rewrite Z.eqb_refl. reflexivity.
  - inversion H as [|? ? Hc Hr]; subst.
    rewrite (proj2 (Z.eqb_neq c sep) Hc), IH by exact Hr. reflexivity.
Qed.

Lemma bn_parse_digits (l : list Z) :
  Forall is_digit l -> bn_parse l = Some (digits_value l 0).
Proof.
  intros H. destruct l as [|c r]; [reflexivity|].
  inversion H as [|? ? Hc _]; subst. unfold bn_parse.
  replace (c =? chr_minus) with false
    by (symmetry; apply Z.eqb_neq; unfold is_digit, chr_minus in *; lia).
  apply parse_digits_ok, H.
Qed.

Lemma padStart_zeros (s : list Z) (target : Z) :
  exists k, padStart s target = repeat chr_zero k ++ s /\
            target <= Z.of_nat (length (padStart s target)).
Proof.
  unfold padStart. destruct (target <=? Z.of_nat (length s)) eqn:E.
  - exists 0%nat. split; [reflexivity|]. apply Z.leb_le in E. exact E.
  - apply Z.leb_gt in E. exists (Z.to_nat (target - Z.of_nat (length s))).
    split; [reflexivity|]. rewrite length_app, repeat_length. lia.
Qed.

(** The two halves [formatAmount] cuts out of the padded string, for
    [decimals >= 1]. *)
Lemma js_slice_int_part (str : list Z) (d : Z) :
  0 < d <= Z.of_nat (length str) ->
  js_slice str 0 (Some (- d)) = take (Z.to_nat (Z.of_nat (length str) - d)) str.
Proof.
  intros Hd. unfold js_slice, relative_index.
  replace (0 <? 0) with false by reflexivity.
  replace (- d <? 0) with true by (symmetry; apply Z.ltb_lt; lia).
  replace (Z.max (Z.of_nat (length str) + - d) 0) with (Z.of_nat (length str) - d)
    by lia.
  replace (Z.min 0 (Z.of_nat (length str))) with 0 by lia.
  rewrite Z.sub_0_r, drop_0. reflexivity.
Qed.

Lemma js_slice_dec_part (str : list Z) (d : Z) :
  0 < d <= Z.of_nat (length str) ->
  js_slice str (- d) None = drop (Z.to_nat (Z.of_nat (length str) - d)) str.
Proof.
  intros Hd. unfold js_slice, relative_index.
  replace (- d <? 0) with true by (symmetry; apply Z.ltb_lt; lia).
  replace (Z.max (Z.of_nat (length str) + - d) 0) with (Z.of_nat (length str) - d)
    by lia.
  apply take_ge. rewrite length_drop. lia.
Qed.

Lemma js_slice_prefix (y : list Z) (d : Z) :
  Z.of_nat (length y) = d -> js_slice (padEnd y d) 0 (Some d) = y.
Proof.
  intros Hy. unfold padEnd. rewrite Hy, Z.leb_refl.
  unfold js_slice, relative_index. rewrite Hy.
  replace (0 <? 0) with false by reflexivity.
  replace (d <? 0) with false by (symmetry; apply Z.ltb_ge; lia).
  rewrite !Z.min_id, Z.min_l by lia. rewrite drop_0.
  apply take_ge. lia.
Qed.

Lemma format_parse_positive (amount decimals : Z) :
  0 <= amount -> 1 <= decimals ->
  parseAmount (formatAmount amount decimals) decimals = Some amount.
Proof.
  intros Ha Hd.
  destruct (decimal_digits_spec amount Ha) as (Hdig & Hlen & Hval).
  assert (Hbs : bn_toString amount = decimal_digits amount).
  { unfold bn_toString. replace (amount <? 0) with false
      by (symmetry; apply Z.ltb_ge; lia). reflexivity. }
  unfold formatAmount. rewrite Hbs.
  set (str := padStart (decimal_digits amount) (decimals + 1)).
  destruct (padStart_zeros (decimal_digits amount) (decimals + 1))
    as (k & Hstr & HP). fold str in Hstr, HP.
  assert (Hsd : Forall is_digit str).
  { rewrite Hstr. apply Forall_app. split; [|exact Hdig].
    apply Forall_forall. intros x Hx. apply list_elem_of_In, repeat_spec in Hx.
    subst x. unfold is_digit, chr_zero. lia. }
  rewrite js_slice_int_part, js_slice_dec_part by lia.
  set (n := Z.to_nat (Z.of_nat (length str) - decimals)).
  assert (Hn : (1 <= n)%nat) by (unfold n; lia).
  assert (Hx : Forall is_digit (take n str)) by (apply Forall_take, Hsd).
  assert (Hy : Forall is_digit (drop n str)) by (apply Forall_drop, Hsd).
  assert (Hyl : Z.of_nat (length (drop n str)) = decimals)
    by (rewrite length_drop; unfold n; lia).
  destruct (take n str) as [|c r] eqn:Et.
  { exfalso. pose proof (f_equal length Et) as Hl. rewrite length_take in Hl.
    cbn in Hl. lia. }
  unfold parseAmount. change ([chr_dot] ++ drop n str) with (chr_dot :: drop n str).
  rewrite (js_split_app chr_dot (c :: r) (drop n str)) by (apply digit_not_sep, Hx).
  rewrite (js_split_no_sep chr_dot (drop n str)) by (apply digit_not_sep, Hy).
  rewrite js_slice_prefix by exact Hyl.
  rewrite <- Et, take_drop, bn_parse_digits by exact Hsd.
  rewrite Hstr, digits_value_app, digits_value_zeros, Hval. reflexivity.
Qed.

Lemma format_parse_zero_decimals (amount : Z) :
  0 <= amount -> parseAmount (formatAmount amount 0) 0 = Some 0.
Proof.
  intros Ha.
  destruct (decimal_digits_spec amount Ha) as (Hdig & Hlen & _).
  assert (Hbs : bn_toString amount = decimal_digits amount).
  { unfold bn_toString. replace (amount <? 0) with false
      by (symmetry; apply Z.ltb_ge; lia). reflexivity. }
  unfold formatAmount. rewrite Hbs.
  set (s := decimal_digits amount) in *.
  assert (Hp : padStart s (0 + 1) = s).
  { unfold padStart. replace (0 + 1 <=? Z.of_nat (length s)) with true
      by (symmetry; apply Z.leb_le; lia). reflexivity. }
  rewrite Hp.
  assert (Hi : js_slice s 0 (Some (- 0)) = []).
  { unfold js_slice, relative_index.
    replace (- 0) with 0 by reflexivity. replace (0 <? 0) with false by reflexivity.
    rewrite Z.min_l by lia. reflexivity. }
  assert (Hd : js_slice s (- 0) None = s).
  { unfold js_slice, relative_index.
    replace (- 0) with 0 by reflexivity. replace (0 <? 0) with false by reflexivity.
    rewrite Z.min_l by lia. rewrite Z.sub_0_r, drop_0. apply take_ge. lia. }
  rewrite Hi, Hd. unfold parseAmount. cbn [app js_split].
  replace (chr_zero =? chr_dot) with false by reflexivity.
  rewrite Z.eqb_refl, (js_split_no_sep chr_dot s) by (apply digit_not_sep, Hdig).
  cbn [js_split].
  assert (Hpe : padEnd s 0 = s).
  { unfold padEnd. rewrite (proj2 (Z.leb_le _ _)) by lia. reflexivity. }
  rewrite Hpe. change (js_slice s 0 (Some 0)) with (js_slice s 0 (Some (- 0))).
  rewrite Hi. reflexivity.
Qed.

(** C9: for a non-negative amount, [parseAmount (formatAmount amount d) d]
    gives the amount back for every [d >= 1]; with [d = 0] the whole value is
    printed as the fraction and parsed back as 0, so the round trip fails
    (e.g. for amount 1). *)
Theorem format_parse_roundtrip (amount : Z) (Ha : 0 <= amount) :
  (forall decimals, 1 <= decimals ->
     parseAmount (formatAmount amount decimals) decimals = Some amount) /\
  parseAmount (formatAmount amount 0) 0 = Some 0 /\
  parseAmount (formatAmount 1 0) 0 <> Some 1.
Proof.
  split; [intros d Hd; apply format_parse_positive; lia|].
  split; [apply format_parse_zero_decimals, Ha|].
  rewrite format_parse_zero_decimals by lia. congruence.
Qed.

Lemma format_parse_roundtrip_witness :
  0 <= 9400000 /\ parseAmount (formatAmount 9400000 6) 6 = Some 9400000.
Proof.
  split; [lia|].
  apply (proj1 (format_parse_roundtrip 9400000 ltac:(lia))). lia.
Defined.

(** * License keys *)

Lemma xor_fold_shape (i : nat) (data hash : list Z) :
  Forall (fun x => 0 <= x < 256) hash ->
  length (xor_fold i data hash) = length hash /\
  Forall (fun x => 0 <= x < 256) (xor_fold i data hash).
Proof.
  revert i hash. induction data as [|b r IH]; intros i hash H; cbn [xor_fold].
  - split; [reflexivity|exact H].
  - destruct (IH (S i) (<[Nat.modulo i 32 := Z.land (Z.lxor (hash !!! Nat.modulo i 32) b) 255]> hash))
      as [Hl Hf].
    + apply Forall_insert; [exact H|].
      change 255 with (Z.ones 8). rewrite Z.land_ones by lia.
      apply Z.mod_pos_bound. reflexivity.
    + rewrite Hl, length_insert. split; [reflexivity|exact Hf].
Qed.

Lemma generateLicenseKey_shape (seed : list Z) :
  length (generateLicenseKey seed) = 32%nat /\
  Forall (fun x => 0 <= x < 256) (generateLicenseKey seed).
Proof.
  unfold generateLicenseKey.
  destruct (xor_fold_shape 0 (text_encode seed) (repeat 0 32)) as [Hl Hf].
  - repeat constructor; lia.
  - split; [rewrite Hl; reflexivity|exact Hf].
Qed.

(** The empty seed and the seed of 64 letters ['a'] give the same key: each
    byte of ['a'] is xor-ed twice into every position. *)
Lemma generateLicenseKey_collision :
  generateLicenseKey [] = generateLicenseKey (repeat 97 64).
Proof. vm_compute. reflexivity. Qed.

(** C8 (as amended): every seed is mapped to 32 bytes, the xor-fold of the
    seed's UTF-8 bytes; distinct seeds can share a key. *)
Theorem generateLicenseKey_bytes_not_injective :
  (forall seed, length (generateLicenseKey seed) = 32%nat /\
                Forall (fun x => 0 <= x < 256) (generateLicenseKey seed)) /\
  exists seed1 seed2, seed1 <> seed2 /\
                      generateLicenseKey seed1 = generateLicenseKey seed2.
Proof.
  split; [exact generateLicenseKey_shape|].
  exists [], (repeat 97 64). split; [discriminate|].
  exact generateLicenseKey_collision.
Qed.

(** C8: the claim that no two distinct seeds share a key is false. *)
Lemma generateLicenseKey_collision_counterexample :
  ~ (forall seed1 seed2,
       generateLicenseKey seed1 = generateLicenseKey seed2 -> seed1 = seed2).
Proof.
  intros Hinj. pose proof (Hinj [] (repeat 97 64) generateLicenseKey_collision).
  discriminate.
Qed.

(** * Category vectors *)

Definition category_step (result : list bool) (cat : Z) : list bool :=
  if (0 <=? cat) && (cat <? 12) then <[Z.to_nat cat := true]> result else result.

Lemma categoriesToBoolArray_fold (l : list Z) :
  categoriesToBoolArray l = fold_left category_step l (repeat false 12).
Proof. reflexivity. Qed.

Lemma category_fold_length (l : list Z) (acc : list bool) :
  length (fold_left category_step l acc) = length acc.
Proof.
  revert acc. induction l as [|c l IH]; intros acc; [reflexivity|].
  cbn [fold_left]. rewrite IH. unfold category_step.
  destruct (_ && _); [apply length_insert|reflexivity].
Qed.

(** The vector built from [acc] (of length 12) and the categories [l]. *)
Lemma category_fold_spec (l : list Z) (acc : list bool) :
  length acc = 12%nat ->
  fold_left category_step l acc =
  map (fun i => acc !!! i || existsb (Z.eqb (Z.of_nat i)) l) (seq 0 12).
Proof.
  revert acc. induction l as [|c l IH]; intros acc Hacc.
  - cbn [fold_left existsb].
    apply list_eq. intros i. rewrite list_lookup_fmap.
    destruct (decide (i < 12)%nat) as [Hi|Hi].
    + rewrite lookup_seq_lt by exact Hi. cbn [fmap option_fmap option_map].
      rewrite orb_false_r. apply list_lookup_lookup_total_lt. lia.
    + rewrite lookup_seq_ge by lia. cbn. apply lookup_ge_None_2. lia.
  - cbn [fold_left]. rewrite IH.
    2:{ unfold category_step. destruct (_ && _); [rewrite length_insert|]; exact Hacc. }
    apply map_ext_in. intros i Hi. apply in_seq in Hi.
    cbn [existsb]. unfold category_step.
    destruct ((0 <=? c) && (c <? 12)) eqn:Ec.
    + apply andb_true_iff in Ec as [E1 E2]. apply Z.leb_le in E1. apply Z.ltb_lt in E2.
      rewrite list_lookup_total_insert.
      destruct (decide (Z.to_nat c = i)) as [Heq|Hne].
      * rewrite decide_True by (split; [exact Heq|lia]).
        replace (Z.of_nat i =? c) with true by (symmetry; apply Z.eqb_eq; lia).
        rewrite orb_true_r. reflexivity.
      * rewrite decide_False by (intros [He _]; congruence).
        replace (Z.of_nat i =? c) with false by (symmetry; apply Z.eqb_neq; lia).
        reflexivity.
    + replace (Z.of_nat i =? c) with false.
      * reflexivity.
      * symmetry. apply Z.eqb_neq. intros Heq. subst c.
        rewrite (proj2 (Z.leb_le 0 _)), (proj2 (Z.ltb_lt _ 12)) in Ec by lia.
        discriminate.
Qed.

Lemma categoriesToBoolArray_spec (l : list Z) :
  categoriesToBoolArray l = map (fun i => existsb (Z.eqb (Z.of_nat i)) l) (seq 0 12).
Proof.
  rewrite categoriesToBoolArray_fold, category_fold_spec by reflexivity.
  apply map_ext_in. intros i Hi. apply in_seq in Hi.
  change (repeat false 12) with (replicate 12 false).
  rewrite lookup_total_replicate_2 by lia. reflexivity.
Qed.

Lemma bool_array_from_seq (f : nat -> bool) (n k : nat) :
  (k + n <= 12)%nat ->
  bool_array_from k (map f (seq k n)) = map Z.of_nat (List.filter f (seq k n)).
Proof.
  revert k. induction n as [|n IH]; intros k Hk; [reflexivity|].
  cbn [seq map bool_array_from]. rewrite (proj2 (Nat.ltb_lt k 12)) by lia.
  rewrite IH by lia. cbn [List.filter].
  destruct (f k); reflexivity.
Qed.

Lemma filter_seq_sorted (f : nat -> bool) (n k : nat) :
  StronglySorted Z.lt (map Z.of_nat (List.filter f (seq k n))) /\
  Forall (fun x => Z.of_nat k <= x) (map Z.of_nat (List.filter f (seq k n))).
Proof.
  revert k. induction n as [|n IH]; intros k; [split; constructor|].
  cbn [seq List.filter]. destruct (IH (S k)) as [Hs Hf].
  assert (Hf' : Forall (fun x => Z.of_nat k < x) (map Z.of_nat (List.filter f (seq (S k) n)))).
  { eapply Forall_impl; [exact Hf|]. intros x Hx. cbv beta in Hx. lia. }
  destruct (f k); cbn [map].
  - split; [constructor; [exact Hs|exact Hf']|].
    constructor; [lia|]. eapply Forall_impl; [exact Hf'|]. intros y Hy; cbv beta in *; lia.
  - split; [exact Hs|]. eapply Forall_impl; [exact Hf'|]. intros y Hy; cbv beta in *; lia.
Qed.

Lemma sorted_same_elements (l1 l2 : list Z) :
  StronglySorted Z.lt l1 -> StronglySorted Z.lt l2 ->
  (forall x, In x l1 <-> In x l2) -> l1 = l2.
Proof.
  revert l2. induction l1 as [|a l1 IH]; intros l2 H1 H2 Hx.
  - destruct l2 as [|b l2]; [reflexivity|].
    exfalso. apply (proj2 (Hx b)). left. reflexivity.
  - destruct l2 as [|b l2]; [exfalso; apply (proj1 (Hx a)); left; reflexivity|].
    apply StronglySorted_inv in H1 as [H1 F1]. apply StronglySorted_inv in H2 as [H2 F2].
    rewrite List.Forall_forall in F1, F2.
    assert (a = b).
    { destruct (proj1 (Hx a) (or_introl eq_refl)) as [|Ha]; [congruence|].
      destruct (proj2 (Hx b) (or_introl eq_refl)) as [|Hb]; [congruence|].
      apply F1 in Hb. apply F2 in Ha. lia. }
    subst b. f_equal. apply IH; [exact H1|exact H2|].
    intros x. split; intros Hin.
    + destruct (proj1 (Hx x) (or_intror Hin)) as [<-|]; [|assumption].
      apply F1 in Hin. lia.
    + destruct (proj2 (Hx x) (or_intror Hin)) as [<-|]; [|assumption].
      apply F2 in Hin. lia.
Qed.

Lemma category_roundtrip_spec (l : list Z) :
  boolArrayToCategories (categoriesToBoolArray l) =
  map Z.of_nat (List.filter (fun i => existsb (Z.eqb (Z.of_nat i)) l) (seq 0 12)).
Proof.
  rewrite categoriesToBoolArray_spec. apply bool_array_from_seq. lia.
Qed.

Lemma category_roundtrip_elements (l : list Z) (x : Z) :
  In x (boolArrayToCategories (categoriesToBoolArray l)) <-> 0 <= x < 12 /\ In x l.
Proof.
  rewrite category_roundtrip_spec, in_map_iff. split.
  - intros (i & <- & Hi). apply filter_In in Hi as [Hs He].
    apply in_seq in Hs. apply existsb_exists in He as (y & Hy & Hyx).
    apply Z.eqb_eq in Hyx. subst y. split; [lia|exact Hy].
  - intros [Hr Hin]. exists (Z.to_nat x). split; [apply Z2Nat.id; lia|].
    apply filter_In. split; [apply in_seq; lia|].
    apply existsb_exists. exists x. split; [exact Hin|].
    apply Z.eqb_eq. apply Z2Nat.id. lia.
Qed.

(** C10: [categoriesToBoolArray] always yields 12 flags and ignores every
    value outside [0, 12); for categories in [0, 12) the round trip through
    [boolArrayToCategories] yields the distinct categories in strictly
    ascending order, hence the identity on sorted duplicate-free lists. *)
Theorem categories_roundtrip :
  (forall cats, length (categoriesToBoolArray cats) = 12%nat) /\
  (forall cats1 c cats2, ~ (0 <= c < 12) ->
     categoriesToBoolArray (cats1 ++ c :: cats2) =
     categoriesToBoolArray (cats1 ++ cats2)) /\
  (forall cats, Forall (fun c => 0 <= c < 12) cats ->
     StronglySorted Z.lt (boolArrayToCategories (categoriesToBoolArray cats)) /\
     (forall x, In x (boolArrayToCategories (categoriesToBoolArray cats)) <->
                In x cats)) /\
  (forall cats, Forall (fun c => 0 <= c < 12) cats -> StronglySorted Z.lt cats ->
     boolArrayToCategories (categoriesToBoolArray cats) = cats).
Proof.
  assert (Hsorted : forall cats,
    StronglySorted Z.lt (boolArrayToCategories (categoriesToBoolArray cats))).
  { intros cats. rewrite category_roundtrip_spec. apply filter_seq_sorted. }
  assert (Helems : forall cats, Forall (fun c => 0 <= c < 12) cats ->
    forall x, In x (boolArrayToCategories (categoriesToBoolArray cats)) <->
              In x cats).
  { intros cats Hr x. rewrite category_roundtrip_elements.
    rewrite List.Forall_forall in Hr. split; [intros [_ H]; exact H|].
    intros H. split; [apply Hr, H|exact H]. }
  split; [|split; [|split]].
  - intros cats. rewrite categoriesToBoolArray_fold, category_fold_length.
    reflexivity.
  - intros cats1 c cats2 Hc. rewrite !categoriesToBoolArray_fold, !fold_left_app.
    cbn [fold_left]. unfold category_step at 2.
    destruct ((0 <=? c) && (c <? 12)) eqn:E; [|reflexivity].
    apply andb_true_iff in E as [E1 E2]. apply Z.leb_le in E1. apply Z.ltb_lt in E2.
    exfalso. apply Hc. lia.
  - intros cats Hr. split; [apply Hsorted|apply Helems, Hr].
  - intros cats Hr Hs. apply sorted_same_elements; [apply Hsorted|exact Hs|].
    apply Helems, Hr.
Qed.

(** * Market accounting *)

(** Weakest preconditions for the ledger monad: [wp m Q s] holds when every
    successful run of [m] from [s] ends in a state satisfying [Q]. *)
Definition wp {A} (m : LM A) (Q : A -> Ledger -> Prop) (s : Ledger) : Prop :=
  match m s with inl _ => True | inr (a, s') => Q a s' end.

Lemma wp_ret {A} (a : A) Q s : Q a s -> wp (lm_ret a) Q s.
Proof. unfold wp, lm_ret. auto. Qed.

Lemma wp_fail {A} e (Q : A -> Ledger -> Prop) s : wp (lm_fail e) Q s.
Proof. unfold wp, lm_fail. exact I. Qed.

Lemma wp_bind {A B} (m : LM A) (k : A -> LM B) Q s :
  wp m (fun a s1 => wp (k a) Q s1) s -> wp (lm_bind m k) Q s.
Proof. unfold wp, lm_bind. destruct (m s) as [e|[a s1]]; auto. Qed.

Lemma wp_get Q s : Q s s -> wp lm_get Q s.
Proof. unfold wp, lm_get. auto. Qed.

Lemma wp_modify f Q s : Q tt (f s) -> wp (lm_modify f) Q s.
Proof. unfold wp, lm_modify. auto. Qed.

Lemma wp_require b e Q s : (b = true -> Q tt s) -> wp (require b e) Q s.
Proof. unfold require. destruct b; intros H; [apply wp_ret, H; reflexivity|apply wp_fail]. Qed.

Lemma wp_of_option {A} (o : option A) e Q s :
  (forall a, o = Some a -> Q a s) -> wp (of_option o e) Q s.
Proof. unfold of_option. destruct o; [intros H; apply wp_ret, H; reflexivity|intros; apply wp_fail]. Qed.

Lemma wp_checked_add a b Q s : Q (a + b) s -> wp (checked_add a b) Q s.
Proof. unfold checked_add. destruct (_ && _); [apply wp_ret|intros; apply wp_fail]. Qed.

Lemma wp_checked_sub a b Q s : Q (a - b) s -> wp (checked_sub a b) Q s.
Proof. unfold checked_sub. destruct (_ && _); [apply wp_ret|intros; apply wp_fail]. Qed.

Ltac wp_tac :=
  repeat (match goal with
  | |- wp (lm_bind _ _) _ _ => apply wp_bind
  | |- wp lm_get _ _ => apply wp_get
  | |- wp (lm_ret _) _ _ => apply wp_ret
  | |- wp (lm_fail _) _ _ => apply wp_fail
  | |- wp (lm_modify _) _ _ => apply wp_modify
  | |- wp (require _ _) _ _ => apply wp_require; intros ?
  | |- wp (of_option _ _) _ _ => apply wp_of_option; intros ? ?
  | |- wp (checked_add _ _) _ _ => apply wp_checked_add
  | |- wp (checked_sub _ _) _ _ => apply wp_checked_sub
  | |- wp (load_market _) _ _ => unfold load_market
  | |- wp (put_market _ _) _ _ => unfold put_market
  | |- wp (put_bet _ _) _ _ => unfold put_bet
  | |- wp (outcome_at _ _) _ _ => unfold outcome_at
  end; cbv beta).

(** A transfer only moves balances. *)
Lemma wp_transfer from to amount Q s :
  (forall s', protocol s' = protocol s /\ markets s' = markets s /\
              bets s' = bets s /\ oracles s' = oracles s -> Q tt s') ->
  wp (transfer from to amount) Q s.
Proof.
  intros H. unfold transfer. wp_tac. apply H. cbn. auto.
Qed.

Lemma wp_run (m : LM unit) (P : Ledger -> Prop) s s' :
  wp m (fun _ s1 => P s1) s -> run m s = inr s' -> P s'.
Proof.
  unfold wp, run. destruct (m s) as [e|[[] s1]]; intros H E; [discriminate|].
  injection E as <-. exact H.
Qed.

Lemma exec_error (m : LM unit) s e : run m s = inl e -> exec m s = s.
Proof. unfold exec. intros ->. reflexivity. Qed.

Ltac wp_full :=
  repeat (progress (wp_tac;
    try (apply wp_transfer; intros ? (? & ? & ? & ?); cbv beta))).

Ltac ledger_simp :=
  cbn [protocol markets bets oracles balances set_markets set_bets set_oracles
       set_balances set_protocol] in *;
  repeat match goal with
  | H : markets ?x = markets ?y |- _ => rewrite H in *; clear H
  | H : bets ?x = bets ?y |- _ => rewrite H in *; clear H
  | H : oracles ?x = oracles ?y |- _ => rewrite H in *; clear H
  | H : protocol ?x = protocol ?y |- _ => rewrite H in *; clear H
  end.

(** Status changes allowed by the market state machine. *)
Definition status_step (before after : MarketStatus) : Prop :=
  after = before \/ (before = Open /\ (after = Resolved \/ after = Cancelled)).

Definition market_kept (a : Z) (st : MarketStatus) (s : Ledger) : Prop :=
  exists m', markets s !! a = Some m' /\ status_step st (status m').

Ltac kept_close :=
  unfold market_kept; ledger_simp;
  repeat match goal with H : bool_decide _ = true |- _ => apply bool_decide_eq_true in H end;
  match goal with
  | |- exists _, <[?k := ?v]> ?M !! ?a = Some _ /\ _ =>
      destruct (decide (a = k)) as [Heqk|Hnek];
      [subst a; rewrite lookup_insert_eq; exists v; split; [reflexivity|]
      |rewrite lookup_insert_ne by congruence]
  | _ => idtac
  end;
  try (eexists; split; [eassumption|left; reflexivity]).

Section Footprints.
Variable pda : list (list Z) -> Z.

(** Every bet record sits at the address derived from its own market and
    bettor. *)
Definition bets_addressed (s : Ledger) : Prop :=
  forall addr b, bets s !! addr = Some b -> addr = getBetPDA pda (market b) (bettor b).

Lemma step_bets_addressed i s :
  bets_addressed s -> wp (step pda i) (fun _ s' => bets_addressed s') s.
Proof.
  intros Hinv. destruct i; cbn [step];
    unfold create_market, place_bet, withdraw_bet, resolve_market,
      oracle_resolve_market, cancel_market, assign_oracle, claim_winnings,
      claim_refund; cbv zeta; wp_full; unfold bets_addressed; ledger_simp.
  all: intros addr b Hb; first [exact (Hinv _ _ Hb)|idtac].
  all: match type of Hb with <[?k := _]> _ !! _ = _ =>
         destruct (decide (addr = k)) as [->|Hne] end;
    [rewrite lookup_insert_eq in Hb; injection Hb as <-
    |rewrite lookup_insert_ne in Hb by (intros E; apply Hne; symmetry; exact E); exact (Hinv _ _ Hb)].
  all: match goal with
       | |- _ = getBetPDA _ (market {| market := _ |}) _ =>
           cbn [market bettor]; reflexivity
       | H : bets ?s0 !! ?k = Some ?a |- ?k = _ => exact (Hinv _ _ H)
       end.
Qed.

Lemma exec_all_bets_addressed is s :
  bets_addressed s -> bets_addressed (exec_all pda is s).
Proof.
  revert s. induction is as [|i is IH]; intros s Hs; [exact Hs|].
  cbn [exec_all fold_left]. fold (exec_all pda is (exec (step pda i) s)).
  apply IH. unfold exec. destruct (run (step pda i) s) as [e|s'] eqn:E; [exact Hs|].
  eapply wp_run; [apply step_bets_addressed, Hs|exact E].
Qed.

Lemma claimed_rejected_winnings s caller mkt b :
  bets s !! getBetPDA pda mkt caller = Some b -> claimed b = true ->
  run (claim_winnings pda caller mkt) s = inl AlreadyClaimed.
Proof.
  intros Hb Hc. unfold run, claim_winnings. cbv zeta.
  unfold lm_bind at 1, lm_get. unfold lm_bind at 1, of_option. rewrite Hb. unfold lm_ret at 1. cbv beta iota.
  unfold lm_bind at 1, require. rewrite Hc. reflexivity.
Qed.

Lemma claimed_rejected_refund s caller mkt b :
  bets s !! getBetPDA pda mkt caller = Some b -> claimed b = true ->
  run (claim_refund pda caller mkt) s = inl AlreadyClaimed.
Proof.
  intros Hb Hc. unfold run, claim_refund. cbv zeta.
  unfold lm_bind at 1, lm_get. unfold lm_bind at 1, of_option. rewrite Hb. unfold lm_ret at 1. cbv beta iota.
  unfold lm_bind at 1, require. rewrite Hc. reflexivity.
Qed.

Lemma claimed_rejected_withdraw s caller mkt now b :
  bets s !! getBetPDA pda mkt caller = Some b -> claimed b = true ->
  bettor b = caller ->
  run (withdraw_bet pda caller mkt now) s = inl AlreadyClaimed.
Proof.
  intros Hb Hc Hw. unfold run, withdraw_bet. cbv zeta.
  unfold lm_bind at 1, lm_get. unfold lm_bind at 1, of_option. rewrite Hb. unfold lm_ret at 1. cbv beta iota.
  unfold lm_bind at 1, require. rewrite Hw, Z.eqb_refl.
  unfold lm_bind at 1, lm_ret. unfold lm_bind at 1. rewrite Hc. reflexivity.
Qed.

(** After a successful claim, refund or withdrawal the caller's bet is
    marked claimed. *)
Definition bet_claimed (caller mkt : Z) (s : Ledger) : Prop :=
  exists b, bets s !! getBetPDA pda mkt caller = Some b /\ claimed b = true.

Lemma claim_marks_claimed s s' caller mkt :
  (run (claim_winnings pda caller mkt) s = inr s' \/
   run (claim_refund pda caller mkt) s = inr s' \/
   exists now, run (withdraw_bet pda caller mkt now) s = inr s') ->
  bet_claimed caller mkt s'.
Proof.
  intros [E|[E|[now E]]]; (eapply wp_run; [|exact E]);
    unfold claim_winnings, claim_refund, withdraw_bet; cbv zeta; wp_full;
    unfold bet_claimed; ledger_simp; rewrite lookup_insert_eq;
    eexists; split; reflexivity.
Qed.

Lemma place_bet_existing s caller mkt idx now b :
  bets s !! getBetPDA pda mkt caller = Some b ->
  run (place_bet pda caller mkt idx now) s = inl AlreadyBet.
Proof.
  intros Hb. unfold run, place_bet. cbv zeta.
  unfold lm_bind at 1, lm_get. unfold lm_bind at 1, require.
  rewrite bool_decide_eq_false_2 by congruence. reflexivity.
Qed.

Lemma step_market_kept i s a m :
  markets s !! a = Some m ->
  wp (step pda i) (fun _ s' => market_kept a (status m) s') s.
Proof.
  intros Ha. destruct i; cbn [step];
    unfold create_market, place_bet, withdraw_bet, resolve_market,
      oracle_resolve_market, cancel_market, assign_oracle, claim_winnings,
      claim_refund; cbv zeta; wp_full; kept_close;
    try congruence;
    unfold status_step; cbn [status market_with_status market_with_pools market_with_oracle];
    first [left; congruence | right; split; [congruence | auto]].
Qed.

Lemma status_step_trans a b c :
  status_step a b -> status_step b c -> status_step a c.
Proof. unfold status_step. intros [->|[-> Hb]] [->|[-> Hc]]; auto; destruct Hb; congruence. Qed.

Lemma exec_market_kept i s a m :
  markets s !! a = Some m -> market_kept a (status m) (exec (step pda i) s).
Proof.
  intros Hm. unfold exec. destruct (run (step pda i) s) as [e|s'] eqn:E.
  - exists m. split; [exact Hm|left; reflexivity].
  - eapply wp_run; [apply step_market_kept, Hm|exact E].
Qed.

Lemma exec_all_market_kept is s a m :
  markets s !! a = Some m -> market_kept a (status m) (exec_all pda is s).
Proof.
  revert s m. induction is as [|i is IH]; intros s m Hm.
  - exists m. split; [exact Hm|left; reflexivity].
  - cbn [exec_all fold_left]. fold (exec_all pda is (exec (step pda i) s)).
    destruct (exec_market_kept i s a m Hm) as (m' & Hm' & Hst).
    destruct (IH _ m' Hm') as (m'' & Hm'' & Hst').
    exists m''. split; [exact Hm''|]. eapply status_step_trans; eassumption.
Qed.

Lemma cancel_market_not_open s caller a m :
  markets s !! a = Some m -> status m <> Open ->
  run (cancel_market caller a) s =
  inl (if caller =? creator m then MarketNotOpen else Unauthorized).
Proof.
  intros Hm Hst.
  unfold run, cancel_market, load_market, lm_bind, lm_get, of_option, require,
    lm_ret, lm_fail. rewrite Hm.
  destruct (caller =? creator m); [|reflexivity].
  rewrite bool_decide_eq_false_2 by exact Hst. reflexivity.
Qed.

End Footprints.

(** C6: markets are never removed and their status only moves from Open to
    Resolved or Cancelled, along any sequence of instructions (failed ones
    commit nothing); [cancel_market] on a cancelled market fails, with
    [MarketNotOpen] for its creator ([Unauthorized] for anybody else), and
    the market stays cancelled. *)
Theorem market_status_one_way (pda : list (list Z) -> Z) (s : Ledger) (a : Z)
    (m : Market) (Hm : markets s !! a = Some m) :
  (forall is, exists m', markets (exec_all pda is s) !! a = Some m' /\
     (status m' = status m \/
      (status m = Open /\ (status m' = Resolved \/ status m' = Cancelled)))) /\
  (status m = Cancelled -> forall caller,
     run (cancel_market caller a) s =
       inl (if caller =? creator m then MarketNotOpen else Unauthorized) /\
     markets (exec (cancel_market caller a) s) !! a = Some m).
Proof.
  split.
  - intros is. exact (exec_all_market_kept pda is s a m Hm).
  - intros Hc caller.
    assert (Hr := cancel_market_not_open s caller a m Hm ltac:(congruence)).
    split; [exact Hr|]. rewrite (exec_error _ _ _ Hr). exact Hm.
Qed.

Lemma market_status_one_way_witness :
  match markets scenario_cancelled !! sc_market with
  | Some m => status m = Cancelled /\
      run (cancel_market sc_creator sc_market) scenario_cancelled =
        inl MarketNotOpen
  | None => False
  end.
Proof.
  destruct (markets scenario_cancelled !! sc_market) as [m|] eqn:E;
    [|vm_compute in E; discriminate].
  assert (Hs : status m = Cancelled) by (vm_compute in E; injection E as <-; reflexivity).
  assert (Hc : (sc_creator =? creator m) = true)
    by (vm_compute in E; injection E as <-; reflexivity).
  split; [exact Hs|].
  destruct (proj2 (market_status_one_way scenario_pda scenario_cancelled sc_market m E)
              Hs sc_creator) as [Hr _].
  rewrite Hr, Hc. reflexivity.
Defined.

Lemma scenario_initial_addressed : bets_addressed scenario_pda scenario_initial.
Proof. intros a b H. cbn in H. rewrite lookup_empty in H. discriminate. Qed.

(** C5: from a ledger where every bet sits at the address derived from
    (its market, its bettor) - the empty ledger, for one - every sequence of
    instructions keeps it so; hence two bet records with the same market and
    bettor are the same record, and [place_bet] by a bettor who already has
    a bet on the market targets that record and fails with [AlreadyBet]. *)
Theorem one_bet_per_pair (pda : list (list Z) -> Z) (s : Ledger)
    (Hinv : bets_addressed pda s) :
  (forall is, bets_addressed pda (exec_all pda is s)) /\
  (forall is a1 a2 b1 b2,
     bets (exec_all pda is s) !! a1 = Some b1 ->
     bets (exec_all pda is s) !! a2 = Some b2 ->
     market b1 = market b2 -> bettor b1 = bettor b2 -> a1 = a2) /\
  (forall is caller mkt idx now b,
     bets (exec_all pda is s) !! getBetPDA pda mkt caller = Some b ->
     run (place_bet pda caller mkt idx now) (exec_all pda is s) = inl AlreadyBet).
Proof.
  split; [|split].
  - intros is. apply exec_all_bets_addressed, Hinv.
  - intros is a1 a2 b1 b2 H1 H2 Hm Hb.
    pose proof (exec_all_bets_addressed pda is s Hinv) as Hall.
    rewrite (Hall _ _ H1), (Hall _ _ H2), Hm, Hb. reflexivity.
  - intros is caller mkt idx now b Hb. eapply place_bet_existing, Hb.
Qed.

Lemma one_bet_per_pair_witness :
  run (place_bet scenario_pda sc_bettor1 sc_market 1 30) scenario_resolved =
  inl AlreadyBet.
Proof.
  destruct (bets scenario_resolved !! getBetPDA scenario_pda sc_market sc_bettor1)
    as [b|] eqn:E; [|vm_compute in E; discriminate].
  exact (proj2 (proj2 (one_bet_per_pair scenario_pda scenario_initial
           scenario_initial_addressed))
           [CreateMarket sc_creator 1 sc_creator 3 10000000 1000 2000
              [[89; 101; 115]; [78; 111]] false 0;
            PlaceBet sc_bettor1 sc_market 0 10;
            PlaceBet sc_bettor2 sc_market 1 20;
            ResolveMarket sc_creator sc_market 0 1500]
           sc_bettor1 sc_market 1 30 b E).
Defined.

(** C4: Scenario B.  After the two bets of 10,000,000 on opposite outcomes
    and the resolution in favour of outcome 0, the outcome-0 bet has pool
    amount 9,400,000, the market has total pool 18,800,000, bonus pool
    1,000,000 and outcome-0 total 9,400,000, the settlement formula gives
    9,400,000 * (18,800,000 + 1,000,000) / 9,400,000 = 19,800,000, and
    [claim_winnings] by that bettor succeeds and credits exactly 19,800,000.
    The estimator of the SDK agrees with the settlement: for every bet, the
    estimate computed on the totals the bet joins (outcome total O, pool T,
    bonus pool B) equals the settlement payout on the totals after the bet
    (outcome total O + net, pool T + net, same bonus pool B); on Scenario B's
    final totals this is the estimate with O = 0, T = 9,400,000 and
    B = 1,000,000, which is 19,800,000. *)
Theorem scenarioB_claim_payout :
  match markets scenario_resolved !! sc_market,
        bets scenario_resolved !! getBetPDA scenario_pda sc_market sc_bettor1 with
  | Some m, Some b =>
      poolAmount b = 9400000 /\ totalPool m = 18800000 /\
      bonusPool m = 1000000 /\
      option_map totalAmount (outcomes m !! 0%nat) = Some 9400000 /\
      winnings_payout (poolAmount b) (totalPool m) (bonusPool m) 9400000 = 19800000
  | _, _ => False
  end /\
  balance_of (exec (claim_winnings scenario_pda sc_bettor1 sc_market) scenario_resolved)
    (WalletAccount sc_bettor1) =
  balance_of scenario_resolved (WalletAccount sc_bettor1) + 19800000 /\
  calculatePotentialWinnings 10000000 0 9400000 1000000 50 50 500 = 19800000 /\
  (forall betAmount O T B p c q,
     let net := netAmount (calculateFees betAmount p c q) in
     winnings_payout net (T + net) B (O + net) =
     calculatePotentialWinnings betAmount O T B p c q).
Proof.
  split; [vm_compute; repeat split|].
  split; [vm_compute; reflexivity|].
  split; [reflexivity|].
  intros betAmount O T B p c q net.
  unfold winnings_payout, calculatePotentialWinnings. fold net.
  destruct (O + net =? 0).
  - lia.
  - f_equal. f_equal. lia.
Qed.

(** C7: a bet whose claimed flag is set is refused by [claim_winnings] and
    [claim_refund] (and by [withdraw_bet] of its bettor) with [AlreadyClaimed],
    and the refused call commits nothing: the ledger, balances included, is
    the one before the call.  Every successful claim, refund or withdrawal
    sets that flag on the caller's bet, so a second such call on the same bet
    is always refused. *)
Theorem second_claim_rejected (pda : list (list Z) -> Z) :
  (forall s caller mkt b,
     bets s !! getBetPDA pda mkt caller = Some b -> claimed b = true ->
     run (claim_winnings pda caller mkt) s = inl AlreadyClaimed /\
     exec (claim_winnings pda caller mkt) s = s /\
     run (claim_refund pda caller mkt) s = inl AlreadyClaimed /\
     exec (claim_refund pda caller mkt) s = s /\
     (bettor b = caller -> forall now,
        run (withdraw_bet pda caller mkt now) s = inl AlreadyClaimed /\
        exec (withdraw_bet pda caller mkt now) s = s)) /\
  (forall s s' caller mkt,
     (run (claim_winnings pda caller mkt) s = inr s' \/
      run (claim_refund pda caller mkt) s = inr s' \/
      exists now, run (withdraw_bet pda caller mkt now) s = inr s') ->
     bet_claimed pda caller mkt s').
Proof.
  split.
  - intros s caller mkt b Hb Hc.
    pose proof (claimed_rejected_winnings pda s caller mkt b Hb Hc) as E1.
    pose proof (claimed_rejected_refund pda s caller mkt b Hb Hc) as E2.
    repeat split; try assumption; try (eapply exec_error; eassumption).
    + apply (claimed_rejected_withdraw pda s caller mkt now b Hb Hc H).
    + eapply exec_error, (claimed_rejected_withdraw pda s caller mkt now b Hb Hc H).
  - intros s s' caller mkt H. eapply claim_marks_claimed, H.
Qed.

Lemma second_claim_rejected_witness :
  run (claim_winnings scenario_pda sc_bettor1 sc_market)
    (exec (claim_winnings scenario_pda sc_bettor1 sc_market) scenario_resolved) =
  inl AlreadyClaimed.
Proof.
  destruct (run (claim_winnings scenario_pda sc_bettor1 sc_market) scenario_resolved)
    as [e|s1] eqn:E; [vm_compute in E; discriminate|].
  unfold exec. rewrite E.
  destruct (proj2 (second_claim_rejected scenario_pda) scenario_resolved s1
              sc_bettor1 sc_market (or_introl E)) as (b & Hb & Hc).
  exact (proj1 (proj1 (second_claim_rejected scenario_pda) s1 sc_bettor1 sc_market
                  b Hb Hc)).
Defined.

(** * Further properties of the SDK helpers *)

(** ** Fee engine *)

Lemma quot_bps_bounds (x : Z) :
  0 <= x ->
  0 <= Z.quot x BPS_DENOMINATOR /\
  Z.quot x BPS_DENOMINATOR * BPS_DENOMINATOR <= x <
  (Z.quot x BPS_DENOMINATOR + 1) * BPS_DENOMINATOR.
Proof.
  intros Hx. unfold BPS_DENOMINATOR. rewrite Z.quot_div_nonneg by lia.
  pose proof (Z.div_mod x 10000 ltac:(lia)).
  pose proof (Z.mod_pos_bound x 10000 ltac:(lia)).
  pose proof (Z.div_pos x 10000 Hx ltac:(lia)). lia.
Qed.

Lemma fee_parts_bounds (amount p c q : Z) :
  0 <= amount -> 0 <= p -> 0 <= c -> 0 <= q -> p + c + q <= BPS_DENOMINATOR ->
  let f := calculateFees amount p c q in
  0 <= poolFee f /\ 0 <= creatorFee f /\ 0 <= protocolFee f /\
  0 <= totalFees f <= amount /\ 0 <= netAmount f /\
  totalFees f * BPS_DENOMINATOR <= amount * (p + c + q) <
  (totalFees f + 3) * BPS_DENOMINATOR.
Proof.
  intros Ha Hp Hc Hq Hs. cbn.
  destruct (quot_bps_bounds (amount * q)) as (H1 & H1l & H1r); [nia|].
  destruct (quot_bps_bounds (amount * c)) as (H2 & H2l & H2r); [nia|].
  destruct (quot_bps_bounds (amount * p)) as (H3 & H3l & H3r); [nia|].
  unfold BPS_DENOMINATOR in *. nia.
Qed.

(** For a non-negative amount and non-negative rates adding up to at most
    100%, every fee is non-negative, the fees together never exceed the
    amount (so the net amount is non-negative), and the three rounded-down
    fees fall short of the exact proportional fee [amount * (p + c + q) /
    10000] by less than 3 base units. *)
Theorem calculateFees_bounds (amount protocolFeeBps creatorFeeBps poolFeeBps : Z)
    (Ha : 0 <= amount) (Hp : 0 <= protocolFeeBps) (Hc : 0 <= creatorFeeBps)
    (Hq : 0 <= poolFeeBps)
    (Hs : protocolFeeBps + creatorFeeBps + poolFeeBps <= BPS_DENOMINATOR) :
  let f := calculateFees amount protocolFeeBps creatorFeeBps poolFeeBps in
  0 <= poolFee f /\ 0 <= creatorFee f /\ 0 <= protocolFee f /\
  0 <= totalFees f <= amount /\ 0 <= netAmount f /\
  totalFees f * BPS_DENOMINATOR <=
    amount * (protocolFeeBps + creatorFeeBps + poolFeeBps) <
  (totalFees f + 3) * BPS_DENOMINATOR.
Proof. exact (fee_parts_bounds amount _ _ _ Ha Hp Hc Hq Hs). Qed.

Lemma calculateFees_bounds_witness :
  calculateFees 10000000 50 50 500 = mkFeeBreakdown 500000 50000 50000 9400000 600000 /\
  0 <= netAmount (calculateFees 10000000 50 50 500).
Proof.
  split; [reflexivity|].
  exact (proj1 (proj2 (proj2 (proj2 (proj2
    (calculateFees_bounds 10000000 50 50 500 ltac:(lia) ltac:(lia) ltac:(lia)
       ltac:(lia) ltac:(vm_compute; discriminate))))))).
Defined.

(** [BN.div] truncates towards zero, so the fee breakdown of a negative
    amount is the exact negation of the breakdown of the positive amount
    (every fee of a negative amount is zero or negative). *)
Theorem calculateFees_negated_amount (amount protocolFeeBps creatorFeeBps poolFeeBps : Z) :
  calculateFees (- amount) protocolFeeBps creatorFeeBps poolFeeBps =
  let f := calculateFees amount protocolFeeBps creatorFeeBps poolFeeBps in
  mkFeeBreakdown (- poolFee f) (- creatorFee f) (- protocolFee f)
    (- netAmount f) (- totalFees f).
Proof.
  unfold calculateFees. cbn [poolFee creatorFee protocolFee netAmount totalFees].
  rewrite !Z.mul_opp_l, !Z.quot_opp_l by (unfold BPS_DENOMINATOR; lia).
  f_equal; lia.
Qed.

(** ** Winnings estimator *)

(** With non-negative totals, a non-negative bet and rates adding up to at
    most 100%, the estimate lies between 0 and everything distributable
    ([totalPool + bonusPool + net]); and when the outcome's current total
    does not exceed [totalPool + bonusPool] the estimate is at least the
    bet's own net amount. *)
Theorem calculatePotentialWinnings_bounds
    (betAmount currentOutcomeTotal totalPool bonusPool
     protocolFeeBps creatorFeeBps poolFeeBps : Z)
    (Hb : 0 <= betAmount) (HO : 0 <= currentOutcomeTotal) (HT : 0 <= totalPool)
    (HB : 0 <= bonusPool) (Hp : 0 <= protocolFeeBps) (Hc : 0 <= creatorFeeBps)
    (Hq : 0 <= poolFeeBps)
    (Hs : protocolFeeBps + creatorFeeBps + poolFeeBps <= BPS_DENOMINATOR) :
  let net := netAmount (calculateFees betAmount protocolFeeBps creatorFeeBps
                          poolFeeBps) in
  let w := calculatePotentialWinnings betAmount currentOutcomeTotal totalPool
             bonusPool protocolFeeBps creatorFeeBps poolFeeBps in
  0 <= w <= totalPool + bonusPool + net /\
  (currentOutcomeTotal <= totalPool + bonusPool -> net <= w).
Proof.
  intros net w.
  destruct (fee_parts_bounds betAmount protocolFeeBps creatorFeeBps poolFeeBps
              Hb Hp Hc Hq Hs) as (_ & _ & _ & _ & Hnet & _).
  fold net in Hnet. unfold w, calculatePotentialWinnings. fold net.
  destruct (currentOutcomeTotal + net =? 0) eqn:E.
  - split; [lia|]. intros _. lia.
  - apply Z.eqb_neq in E.
    rewrite Z.quot_div_nonneg by nia.
    split; [split|].
    + apply Z.div_pos; nia.
    + apply Z.div_le_upper_bound; [lia|]. nia.
    + intros Hle. apply Z.div_le_lower_bound; [lia|]. nia.
Qed.

Lemma calculatePotentialWinnings_bounds_witness :
  calculatePotentialWinnings 10000000 9400000 9400000 500000 50 50 500 <=
  9400000 + 500000 + 9400000.
Proof.
  exact (proj2 (proj1 (calculatePotentialWinnings_bounds 10000000 9400000 9400000
    500000 50 50 500 ltac:(lia) ltac:(lia) ltac:(lia) ltac:(lia) ltac:(lia)
    ltac:(lia) ltac:(lia) ltac:(vm_compute; discriminate)))).
Defined.

(** ** Amount formatting and parsing *)

Lemma bn_toString_nonempty (a : Z) : (1 <= length (bn_toString a))%nat.
Proof.
  unfold bn_toString. destruct (a <? 0) eqn:E; [cbn; lia|].
  apply Z.ltb_ge in E. apply (decimal_digits_spec a E).
Qed.

(** With [decimals = 0], [slice(0, -0)] is empty and [slice(-0)] is the
    whole string, so [formatAmount] prints ["0."] followed by the whole
    amount, sign included: [formatAmount 5 0] is ["0.5"]. *)
Theorem formatAmount_zero_decimals_text (amount : Z) :
  formatAmount amount 0 = [chr_zero; chr_dot] ++ bn_toString amount.
Proof.
  pose proof (bn_toString_nonempty amount) as Hl.
  unfold formatAmount. set (s := bn_toString amount) in *.
  assert (Hp : padStart s (0 + 1) = s).
  { unfold padStart. replace (0 + 1 <=? Z.of_nat (length s)) with true
      by (symmetry; apply Z.leb_le; lia). reflexivity. }
  rewrite Hp. unfold js_slice, relative_index.
  replace (- 0) with 0 by reflexivity. replace (0 <? 0) with false by reflexivity.
  rewrite Z.min_l by lia. rewrite !Z.sub_0_r, !drop_0.
  rewrite Nat2Z.id, (take_ge s (length s)) by lia. reflexivity.
Qed.

Lemma digits_value_bound (l : list Z) :
  Forall is_digit l -> 0 <= digits_value l 0 < 10 ^ Z.of_nat (length l).
Proof.
  induction l as [|c l IH] using rev_ind; intros H; [cbn; lia|].
  apply Forall_app in H as [Hl Hc]. inversion Hc as [|? ? Hd _]; subst.
  unfold is_digit in Hd. specialize (IH Hl).
  rewrite digits_value_app.
  rewrite length_app. cbn [length]. rewrite Nat2Z.inj_add, Z.pow_add_r by lia.
  cbn [Z.of_nat Pos.of_succ_nat]. rewrite Z.pow_1_r.
  replace (digits_value [c] (digits_value l 0)) with (digits_value l 0 * 10 + (c - 48))
    by reflexivity. lia.
Qed.

(** For a non-negative amount and [decimals >= 1], [formatAmount] prints a
    non-empty run of digits, one ['.'] and exactly [decimals] digits; the
    integer digits denote [amount / 10^decimals] and the fractional digits
    [amount mod 10^decimals]. *)
Theorem formatAmount_digits (amount decimals : Z)
    (Ha : 0 <= amount) (Hd : 1 <= decimals) :
  exists intPart decPart,
    formatAmount amount decimals = intPart ++ chr_dot :: decPart /\
    intPart <> [] /\ Forall is_digit intPart /\ Forall is_digit decPart /\
    Z.of_nat (length decPart) = decimals /\
    digits_value intPart 0 = amount / 10 ^ decimals /\
    digits_value decPart 0 = amount mod 10 ^ decimals.
Proof.
  destruct (decimal_digits_spec amount Ha) as (Hdig & Hlen & Hval).
  assert (Hbs : bn_toString amount = decimal_digits amount).
  { unfold bn_toString. replace (amount <? 0) with false
      by (symmetry; apply Z.ltb_ge; lia). reflexivity. }
  unfold formatAmount. rewrite Hbs.
  set (str := padStart (decimal_digits amount) (decimals + 1)).
  destruct (padStart_zeros (decimal_digits amount) (decimals + 1))
    as (k & Hstr & HP). fold str in Hstr, HP.
  assert (Hsd : Forall is_digit str).
  { rewrite Hstr. apply Forall_app. split; [|exact Hdig].
    apply Forall_forall. intros x Hx. apply list_elem_of_In, repeat_spec in Hx.
    subst x. unfold is_digit, chr_zero. lia. }
  rewrite js_slice_int_part, js_slice_dec_part by lia.
  set (n := Z.to_nat (Z.of_nat (length str) - decimals)).
  assert (Hx : Forall is_digit (take n str)) by (apply Forall_take, Hsd).
  assert (Hy : Forall is_digit (drop n str)) by (apply Forall_drop, Hsd).
  assert (Hyl : Z.of_nat (length (drop n str)) = decimals)
    by (rewrite length_drop; unfold n; lia).
  assert (Hne : take n str <> []).
  { intros Et. pose proof (f_equal length Et) as Hl. rewrite length_take in Hl.
    cbn in Hl. unfold n in Hl. lia. }
  assert (Hsv : digits_value str 0 = amount).
  { rewrite Hstr, digits_value_app, digits_value_zeros. exact Hval. }
  rewrite <- (take_drop n str), digits_value_app, digits_value_acc, Hyl in Hsv.
  pose proof (digits_value_bound _ Hy) as Hb. rewrite Hyl in Hb.
  exists (take n str), (drop n str).
  destruct (take n str) as [|c r] eqn:Et; [congruence|].
  repeat split; try assumption.
  - apply (Z.div_unique_pos amount (10 ^ decimals) _ (digits_value (drop n str) 0));
      [exact Hb|lia].
  - apply (Z.mod_unique_pos amount (10 ^ decimals) (digits_value (c :: r) 0));
      [exact Hb|lia].
Qed.

Lemma formatAmount_digits_witness :
  exists intPart decPart,
    formatAmount 1234567 6 = intPart ++ chr_dot :: decPart /\
    intPart <> [] /\ Forall is_digit intPart /\ Forall is_digit decPart /\
    Z.of_nat (length decPart) = 6 /\
    digits_value intPart 0 = 1234567 / 10 ^ 6 /\
    digits_value decPart 0 = 1234567 mod 10 ^ 6.
Proof. exact (formatAmount_digits 1234567 6 ltac:(lia) ltac:(lia)). Defined.





(** ** Category vectors and names *)

Lemma bool_array_from_in (k : nat) (b : list bool) (x : Z) :
  In x (bool_array_from k b) <->
  Z.of_nat k <= x < 12 /\ b !! (Z.to_nat x - k)%nat = Some true.
Proof.
  revert k. induction b as [|b0 r IH]; intros k; cbn [bool_array_from].
  - split; [intros []|]. intros [_ H]. rewrite lookup_nil in H. discriminate.
  - destruct (Nat.ltb k 12) eqn:Ek.
    + apply Nat.ltb_lt in Ek. rewrite in_app_iff, IH. split.
      * intros [Hx|(Hx & Hl)].
        -- destruct b0; [|destruct Hx]. destruct Hx as [<-|[]].
           split; [lia|]. rewrite Nat2Z.id, Nat.sub_diag. reflexivity.
        -- split; [lia|].
           replace (Z.to_nat x - k)%nat with (S (Z.to_nat x - S k)) by lia.
           exact Hl.
      * intros (Hx & Hl).
        destruct (Z.eq_dec x (Z.of_nat k)) as [->|Hne].
        -- left. rewrite Nat2Z.id, Nat.sub_diag in Hl. cbn in Hl.
           injection Hl as ->. left. reflexivity.
        -- right. split; [lia|].
           replace (Z.to_nat x - k)%nat with (S (Z.to_nat x - S k)) in Hl by lia.
           exact Hl.
    + apply Nat.ltb_ge in Ek. split; [intros []|]. intros [Hx _]. lia.
Qed.

Lemma bool_array_from_sorted (k : nat) (b : list bool) :
  StronglySorted Z.lt (bool_array_from k b) /\
  Forall (fun x => Z.of_nat k <= x) (bool_array_from k b).
Proof.
  revert k. induction b as [|b0 r IH]; intros k; cbn [bool_array_from];
    [split; constructor|].
  destruct (Nat.ltb k 12); [|split; constructor].
  destruct (IH (S k)) as [Hs Hf].
  destruct b0; cbn [app].
  - split.
    + constructor; [exact Hs|].
      eapply Forall_impl; [exact Hf|]. cbv beta. intros x Hx. lia.
    + constructor; [lia|]. eapply Forall_impl; [exact Hf|]. cbv beta. intros x Hx. lia.
  - split; [exact Hs|]. eapply Forall_impl; [exact Hf|]. cbv beta. intros x Hx. lia.
Qed.

(** For every boolean array, [boolArrayToCategories] lists, in strictly
    increasing order and without repetition, exactly the indices [i < 12]
    whose entry is [true]; entries from index 12 on are never read. *)
Theorem boolArrayToCategories_members :
  (forall boolArray, StronglySorted Z.lt (boolArrayToCategories boolArray)) /\
  (forall boolArray x,
     In x (boolArrayToCategories boolArray) <->
     0 <= x < 12 /\ boolArray !! Z.to_nat x = Some true) /\
  (forall b1 b2, length b1 = 12%nat ->
     boolArrayToCategories (b1 ++ b2) = boolArrayToCategories b1).
Proof.
  split; [|split].
  - intros b. apply bool_array_from_sorted.
  - intros b x. unfold boolArrayToCategories. rewrite bool_array_from_in.
    rewrite Nat.sub_0_r. cbn [Z.of_nat]. reflexivity.
  - intros b1 b2 Hl. unfold boolArrayToCategories.
    assert (Hgen : forall k l1, (k + length l1 = 12)%nat ->
              bool_array_from k (l1 ++ b2) = bool_array_from k l1).
    { intros k l1. revert k. induction l1 as [|c l1 IH]; intros k Hk.
      - cbn in Hk. replace k with 12%nat by lia. destruct b2; reflexivity.
      - cbn [app bool_array_from]. cbn [length] in Hk.
        rewrite IH by lia. reflexivity. }
    apply Hgen. lia.
Qed.

(** Categories read back from any boolean array and turned into an array
    again give the array's first 12 entries, missing entries read as
    [false]. *)
Theorem boolArray_categories_roundtrip (boolArray : list bool) :
  categoriesToBoolArray (boolArrayToCategories boolArray) =
  map (fun i => default false (boolArray !! i)) (seq 0 12).
Proof.
  rewrite categoriesToBoolArray_spec. apply map_ext_in. intros i Hi.
  apply in_seq in Hi.
  assert (Hin : In (Z.of_nat i) (boolArrayToCategories boolArray) <->
                boolArray !! i = Some true).
  { unfold boolArrayToCategories. rewrite bool_array_from_in, Nat2Z.id, Nat.sub_0_r.
    split; [intros [_ H]; exact H|intros H; split; [lia|exact H]]. }
  destruct (existsb (Z.eqb (Z.of_nat i)) (boolArrayToCategories boolArray)) eqn:E.
  - apply existsb_exists in E as (x & Hx & Hxe). apply Z.eqb_eq in Hxe. subst x.
    apply Hin in Hx. rewrite Hx. reflexivity.
  - destruct (boolArray !! i) as [[]|] eqn:Eb; try reflexivity.
    exfalso. assert (Hx : In (Z.of_nat i) (boolArrayToCategories boolArray))
      by (apply Hin; reflexivity).
    assert (existsb (Z.eqb (Z.of_nat i)) (boolArrayToCategories boolArray) = true)
      as Ht by (apply existsb_exists; exists (Z.of_nat i); split; [exact Hx|apply Z.eqb_refl]).
    congruence.
Qed.

(** [getCategoryName] gives ['Unknown'] exactly for the values that are not
    among [getAllCategories], the twelve categories have twelve different
    names, and [getAllCategories] marks every slot of the category array. *)
Theorem getCategoryName_known :
  (forall category,
     getCategoryName category <> unknown_category_name <->
     In category getAllCategories) /\
  NoDup (map getCategoryName getAllCategories) /\
  categoriesToBoolArray getAllCategories = repeat true 12.
Proof.
  split; [|split].
  - intros c.
    assert (Hall : In c getAllCategories <-> 0 <= c < 12).
    { unfold getAllCategories. cbn [In]. split; [intros H; repeat destruct H as [<-|H]; lia|].
      intros Hc. lia. }
    rewrite Hall. unfold getCategoryName.
    destruct ((0 <=? c) && (c <? 12)) eqn:E.
    + apply andb_true_iff in E as [E1 E2]. apply Z.leb_le in E1. apply Z.ltb_lt in E2.
      split; [intros _; lia|intros _].
      assert (Hn : (Z.to_nat c < 12)%nat) by lia.
      destruct (Z.to_nat c) as [|[|[|[|[|[|[|[|[|[|[|[|n]]]]]]]]]]]];
        try lia; vm_compute; discriminate.
    + split; [intros H; exfalso; apply H; reflexivity|].
      intros Hc. apply andb_false_iff in E as [E|E].
      * apply Z.leb_gt in E. lia.
      * apply Z.ltb_ge in E. lia.
  - apply (bool_decide_unpack _). vm_compute. exact I.
  - reflexivity.
Qed.

(** ** License keys *)

Lemma text_encode_ascii (s : list Z) :
  Forall (fun c => 0 <= c < 128) s -> text_encode s = s.
Proof.
  induction s as [|c s IH]; intros H; [reflexivity|].
  inversion H as [|? ? Hc Hs]; subst. cbn [text_encode].
  unfold is_high_surrogate, is_low_surrogate.
  replace (55296 <=? c) with false by (symmetry; apply Z.leb_gt; lia).
  replace (56320 <=? c) with false by (symmetry; apply Z.leb_gt; lia).
  cbn [andb]. unfold utf8_code_point.
  replace (c <? 128) with true by (symmetry; apply Z.ltb_lt; lia).
  rewrite IH by exact Hs. reflexivity.
Qed.

Lemma xor_fold_prefix (data p : list Z) :
  (length p + length data <= 32)%nat ->
  Forall (fun x => 0 <= x < 256) data ->
  xor_fold (length p) data (p ++ repeat 0 (32 - length p)) =
  p ++ data ++ repeat 0 (32 - length p - length data).
Proof.
  revert p. induction data as [|b data IH]; intros p Hl Hd.
  - cbn. rewrite Nat.sub_0_r. reflexivity.
  - inversion Hd as [|? ? Hb Hr]; subst. cbn [length] in Hl. cbn [xor_fold].
    rewrite Nat.mod_small by lia.
    destruct (32 - length p)%nat as [|m] eqn:Em; [lia|].
    cbn [repeat].
    rewrite lookup_total_app_r, Nat.sub_diag by lia. cbn [lookup_total list_lookup_total].
    rewrite <- (Nat.add_0_r (length p)) at 2.
    rewrite insert_app_r. cbn [insert list_insert].
    rewrite Z.lxor_0_l.
    replace (Z.land b 255) with b
      by (change 255 with (Z.ones 8); rewrite Z.land_ones by lia;
          symmetry; apply Z.mod_small; lia).
    assert (Hm : (32 - length (p ++ [b]) = m)%nat) by (rewrite length_app; cbn; lia).
    specialize (IH (p ++ [b])). rewrite Hm, length_app, <- !app_assoc in IH.
    cbn [length app] in IH. rewrite Nat.add_1_r in IH.
    rewrite IH by (lia || exact Hr). reflexivity.
Qed.

Lemma app_zeros_inj (l1 l2 : list Z) (n1 n2 : nat) :
  Forall (fun c => c <> 0) l1 -> Forall (fun c => c <> 0) l2 ->
  l1 ++ repeat 0 n1 = l2 ++ repeat 0 n2 -> l1 = l2.
Proof.
  revert l2. induction l1 as [|a l1 IH]; intros l2 H1 H2 E.
  - destruct l2 as [|b l2]; [reflexivity|].
    inversion H2 as [|? ? Hb _]; subst. destruct n1; cbn in E; congruence.
  - inversion H1 as [|? ? Ha Hr1]; subst.
    destruct l2 as [|b l2].
    + destruct n2; cbn in E; congruence.
    + inversion H2 as [|? ? Hb Hr2]; subst. cbn in E. injection E as -> E.
      f_equal. apply IH; assumption.
Qed.

(** A seed of at most 32 ASCII characters is its own license key, padded
    with zero bytes; so among such seeds without a NUL character, different
    seeds get different keys. *)
Theorem generateLicenseKey_short_ascii :
  (forall seed, Forall (fun c => 0 <= c < 128) seed -> (length seed <= 32)%nat ->
     generateLicenseKey seed = seed ++ repeat 0 (32 - length seed)) /\
  (forall seed1 seed2,
     Forall (fun c => 0 < c < 128) seed1 -> (length seed1 <= 32)%nat ->
     Forall (fun c => 0 < c < 128) seed2 -> (length seed2 <= 32)%nat ->
     generateLicenseKey seed1 = generateLicenseKey seed2 -> seed1 = seed2).
Proof.
  assert (Hkey : forall seed, Forall (fun c => 0 <= c < 128) seed ->
            (length seed <= 32)%nat ->
            generateLicenseKey seed = seed ++ repeat 0 (32 - length seed)).
  { intros seed Ha Hl. unfold generateLicenseKey. rewrite text_encode_ascii by exact Ha.
    pose proof (xor_fold_prefix seed [] ltac:(cbn; lia)) as Hx.
    cbn [length app] in Hx. rewrite Nat.sub_0_r in Hx. apply Hx.
    eapply Forall_impl; [exact Ha|]. cbv beta. intros; lia. }
  split; [exact Hkey|].
  intros s1 s2 H1 L1 H2 L2 E.
  rewrite !Hkey in E by first [assumption
    |eapply Forall_impl; [eassumption|]; cbv beta; intros; lia].
  apply (app_zeros_inj s1 s2 (32 - length s1) (32 - length s2)); [| |exact E].
  - eapply Forall_impl; [exact H1|]. cbv beta. intros; lia.
  - eapply Forall_impl; [exact H2|]. cbv beta. intros; lia.
Qed.

Lemma generateLicenseKey_short_ascii_witness :
  generateLicenseKey [97; 98; 99] = [97; 98; 99] ++ repeat 0 29.
Proof.
  exact (proj1 generateLicenseKey_short_ascii [97; 98; 99]
    ltac:(repeat constructor; lia) ltac:(cbn; lia)).
Defined.

(** ** Address derivation *)

(** Little-endian reading of a byte list. *)
Fixpoint le_value (bytes : list Z) : Z :=
  match bytes with
  | [] => 0
  | b :: r => b + 256 * le_value r
  end.

Lemma le_value_le_bytes (n : nat) (v : Z) :
  0 <= v -> le_value (le_bytes n v) = v mod 2 ^ (8 * Z.of_nat n).
Proof.
  revert v. induction n as [|n IH]; intros v Hv.
  - cbn. symmetry. apply Z.mod_1_r.
  - cbn [le_bytes le_value].
    rewrite Z.shiftr_div_pow2, IH by (try apply Z.div_pos; lia).
    change 255 with (Z.ones 8). rewrite Z.land_ones by lia.
    replace (8 * Z.of_nat (S n)) with (8 + 8 * Z.of_nat n) by lia.
    rewrite Z.pow_add_r by lia.
    rewrite Z.rem_mul_r by (try apply Z.pow_pos_nonneg; lia). reflexivity.
Qed.

Lemma le_bytes_inj (n : nat) (v1 v2 : Z) :
  0 <= v1 < 2 ^ (8 * Z.of_nat n) -> 0 <= v2 < 2 ^ (8 * Z.of_nat n) ->
  le_bytes n v1 = le_bytes n v2 -> v1 = v2.
Proof.
  intros H1 H2 E. apply (f_equal le_value) in E.
  rewrite !le_value_le_bytes, !Z.mod_small in E by lia. exact E.
Qed.

Lemma to_buffer_inj (k1 k2 : Z) :
  0 <= k1 < 2 ^ 256 -> 0 <= k2 < 2 ^ 256 -> to_buffer k1 = to_buffer k2 -> k1 = k2.
Proof.
  intros H1 H2 E. unfold to_buffer in E. apply (f_equal (@rev Z)) in E.
  rewrite !rev_involutive in E. exact (le_bytes_inj 32 k1 k2 H1 H2 E).
Qed.

Lemma scenario_pda_inj (s1 s2 : list (list Z)) :
  scenario_pda s1 = scenario_pda s2 -> s1 = s2.
Proof. unfold scenario_pda. intros E. injection E as E. exact (inj encode _ _ E). Qed.

(** [getMarketPDA] of a [BN] id: for ids in [0, 2^64) the seed is the
    8-byte little-endian id, and different ids give different seeds, hence
    different addresses when the address derivation is collision-free; the
    sign of the id is dropped ([-id] and [id] give the same address), and
    an id of magnitude [2^64] or more throws. *)
Theorem getMarketPDA_checked_spec (pda : list (list Z) -> Z) :
  (forall marketId, 0 <= marketId < 2 ^ 64 ->
     getMarketPDA_checked pda marketId = Some (getMarketPDA pda marketId)) /\
  (forall marketId,
     getMarketPDA_checked pda (- marketId) = getMarketPDA_checked pda marketId) /\
  (forall marketId, 2 ^ 64 <= Z.abs marketId ->
     getMarketPDA_checked pda marketId = None) /\
  ((forall s1 s2, pda s1 = pda s2 -> s1 = s2) ->
   forall id1 id2, 0 <= id1 < 2 ^ 64 -> 0 <= id2 < 2 ^ 64 ->
   getMarketPDA pda id1 = getMarketPDA pda id2 -> id1 = id2).
Proof.
  unfold getMarketPDA_checked, bn_toArrayLike_le. split; [|split; [|split]].
  - intros id Hid. rewrite Z.abs_eq by lia.
    replace (id <? 2 ^ (8 * Z.of_nat 8)) with true
      by (symmetry; apply Z.ltb_lt; cbn; lia).
    reflexivity.
  - intros id. rewrite Z.abs_opp. reflexivity.
  - intros id Hid. replace (Z.abs id <? 2 ^ (8 * Z.of_nat 8)) with false
      by (symmetry; apply Z.ltb_ge; cbn; lia).
    reflexivity.
  - intros Hinj id1 id2 H1 H2 E. unfold getMarketPDA in E.
    apply Hinj, (f_equal (fun l => nth 1 l [])) in E. cbn [nth] in E.
    apply (le_bytes_inj 8); cbn; lia || exact E.
Qed.

Lemma getMarketPDA_checked_spec_witness :
  getMarketPDA_checked scenario_pda 1 = Some sc_market.
Proof.
  exact (proj1 (getMarketPDA_checked_spec scenario_pda) 1 ltac:(lia)).
Defined.

(** [getOraclePDA]: an id in [0, 2^32) becomes its 4-byte little-endian
    encoding, which reads back as the id; any other id throws; so when the
    address derivation is collision-free, one oracle address never comes
    from two ids. *)
Theorem getOraclePDA_spec (pda : list (list Z) -> Z) :
  (forall oracleId, 0 <= oracleId < 2 ^ 32 ->
     getOraclePDA pda oracleId = Some (pda [ORACLE_SEED; le_bytes 4 oracleId]) /\
     le_value (le_bytes 4 oracleId) = oracleId) /\
  (forall oracleId, oracleId < 0 \/ 2 ^ 32 <= oracleId ->
     getOraclePDA pda oracleId = None) /\
  ((forall s1 s2, pda s1 = pda s2 -> s1 = s2) ->
   forall id1 id2 a, getOraclePDA pda id1 = Some a -> getOraclePDA pda id2 = Some a ->
   id1 = id2).
Proof.
  unfold getOraclePDA, writeUInt32LE. split; [|split].
  - intros id Hid.
    replace ((0 <=? id) && (id <=? 4294967295)) with true
      by (symmetry; apply andb_true_iff; split; [apply Z.leb_le|apply Z.leb_le]; lia).
    split; [reflexivity|]. rewrite le_value_le_bytes by lia.
    apply Z.mod_small. cbn. lia.
  - intros id Hid.
    replace ((0 <=? id) && (id <=? 4294967295)) with false; [reflexivity|].
    symmetry. apply andb_false_iff.
    destruct Hid; [left; apply Z.leb_gt|right; apply Z.leb_gt]; lia.
  - intros Hinj id1 id2 a E1 E2.
    destruct ((0 <=? id1) && (id1 <=? 4294967295)) eqn:R1; [|discriminate].
    destruct ((0 <=? id2) && (id2 <=? 4294967295)) eqn:R2; [|discriminate].
    cbn [option_map] in E1, E2. rewrite <- E2 in E1. injection E1 as E1.
    apply Hinj, (f_equal (fun l => nth 1 l [])) in E1 as E. cbn [nth] in E.
    apply andb_true_iff in R1 as [R1 R1']. apply andb_true_iff in R2 as [R2 R2'].
    apply Z.leb_le in R1, R1', R2, R2'.
    apply (le_bytes_inj 4); cbn; lia || exact E.
Qed.

Lemma getOraclePDA_spec_witness :
  getOraclePDA scenario_pda 7 = Some (scenario_pda [ORACLE_SEED; [7; 0; 0; 0]]).
Proof. exact (proj1 (proj1 (getOraclePDA_spec scenario_pda) 7 ltac:(lia))). Defined.

(** [getLicensePDA]: [Buffer.from] keeps the bytes of a generated license
    key as they are, so with a collision-free address derivation different
    byte keys get different license addresses; numbers that agree modulo 256
    are the same byte, so such keys share one address. *)
Theorem getLicensePDA_spec (pda : list (list Z) -> Z) :
  (forall seed, getLicensePDA pda (generateLicenseKey seed) =
                pda [LICENSE_SEED; generateLicenseKey seed]) /\
  ((forall s1 s2, pda s1 = pda s2 -> s1 = s2) ->
   forall k1 k2, Forall (fun x => 0 <= x < 256) k1 -> Forall (fun x => 0 <= x < 256) k2 ->
   getLicensePDA pda k1 = getLicensePDA pda k2 -> k1 = k2) /\
  (forall k1 k2, Forall2 (fun x y => x mod 256 = y mod 256) k1 k2 ->
   getLicensePDA pda k1 = getLicensePDA pda k2).
Proof.
  assert (Hbytes : forall k, Forall (fun x => 0 <= x < 256) k -> buffer_from k = k).
  { intros k Hk. unfold buffer_from. induction Hk as [|x k Hx Hk IH]; [reflexivity|].
    cbn [map]. rewrite IH, Z.mod_small by exact Hx. reflexivity. }
  unfold getLicensePDA. split; [|split].
  - intros seed. rewrite Hbytes by apply generateLicenseKey_shape. reflexivity.
  - intros Hinj k1 k2 H1 H2 E.
    apply Hinj, (f_equal (fun l => nth 1 l [])) in E. cbn [nth] in E.
    rewrite !Hbytes in E by assumption. exact E.
  - intros k1 k2 H. f_equal. f_equal. unfold buffer_from.
    induction H as [|x y k1 k2 Hxy _ IH]; [reflexivity|]. cbn [map]. congruence.
Qed.

Lemma getLicensePDA_spec_witness :
  getLicensePDA scenario_pda [256; 1] = getLicensePDA scenario_pda [0; 257].
Proof.
  apply (proj2 (proj2 (getLicensePDA_spec scenario_pda))).
  repeat constructor.
Defined.

(** The market vault, pool vault and bet addresses determine their
    arguments (keys in [0, 2^256)) when the address derivation is
    collision-free, and no market, market vault, pool vault or bet address
    ever equals one of another kind. *)
Theorem derived_addresses_distinct (pda : list (list Z) -> Z)
    (Hinj : forall s1 s2, pda s1 = pda s2 -> s1 = s2) :
  (forall m1 b1 m2 b2, 0 <= m1 < 2 ^ 256 -> 0 <= b1 < 2 ^ 256 ->
     0 <= m2 < 2 ^ 256 -> 0 <= b2 < 2 ^ 256 ->
     getBetPDA pda m1 b1 = getBetPDA pda m2 b2 -> m1 = m2 /\ b1 = b2) /\
  (forall m1 m2, 0 <= m1 < 2 ^ 256 -> 0 <= m2 < 2 ^ 256 ->
     (getMarketVaultPDA pda m1 = getMarketVaultPDA pda m2 -> m1 = m2) /\
     (getPoolVaultPDA pda m1 = getPoolVaultPDA pda m2 -> m1 = m2)) /\
  (forall id m m' b,
     getMarketPDA pda id <> getMarketVaultPDA pda m /\
     getMarketPDA pda id <> getPoolVaultPDA pda m /\
     getMarketPDA pda id <> getBetPDA pda m b /\
     getMarketVaultPDA pda m <> getPoolVaultPDA pda m' /\
     getMarketVaultPDA pda m <> getBetPDA pda m' b /\
     getPoolVaultPDA pda m <> getBetPDA pda m' b).
Proof.
  split; [|split].
  - intros m1 b1 m2 b2 Hm1 Hb1 Hm2 Hb2 E. unfold getBetPDA in E.
    apply Hinj in E.
    pose proof (f_equal (fun l => nth 1 l []) E) as Em.
    pose proof (f_equal (fun l => nth 2 l []) E) as Eb. cbn [nth] in Em, Eb.
    split; [apply to_buffer_inj in Em|apply to_buffer_inj in Eb]; assumption.
  - intros m1 m2 H1 H2. unfold getMarketVaultPDA, getPoolVaultPDA.
    split; intros E; apply Hinj, (f_equal (fun l => nth 1 l [])) in E; cbn [nth] in E;
      apply to_buffer_inj in E; assumption.
  - intros id m m' b.
    unfold getMarketPDA, getMarketVaultPDA, getPoolVaultPDA, getBetPDA.
    repeat split; intros E; apply Hinj in E;
      unfold MARKET_SEED, MARKET_VAULT_SEED, POOL_VAULT_SEED, BET_SEED in E;
      congruence.
Qed.

Lemma derived_addresses_distinct_witness :
  getMarketVaultPDA scenario_pda sc_market <> getPoolVaultPDA scenario_pda sc_market.
Proof.
  exact (proj1 (proj2 (proj2 (proj2
    (proj2 (proj2 (derived_addresses_distinct scenario_pda scenario_pda_inj))
       1 sc_market sc_market 0))))).
Defined.
